(** * Speech-to-Speech Translator: orchestration flow of [main.py]

    A shallow embedding of the recognition worker
    ([SpeechRecognitionThread.run]) and of the application shell
    ([TranslationApp]) together with the event loop that connects them.
    Calls into the microphone, the recognition, translation and synthesis
    services, the temporary-file library and the media player are oracles:
    each call either returns a value or raises an exception. *)

From stdpp Require Import base strings list gmap sets.

Open Scope string_scope.

(** ** Python exceptions and fallible calls *)

(** The exception classes the handlers of [main.py] tell apart.  Every
    value stands for an instance of [Exception]; [OtherError] is any class
    that none of the three named handlers matches. *)
Inductive exn_class : Type :=
| WaitTimeoutError
| UnknownValueError
| RequestError
| OtherError.

(** An exception instance: its class and [str(e)]. *)
Record exn : Type := Exn { exn_cls : exn_class; exn_str : string }.

Inductive result (A : Type) : Type :=
| Return (a : A)
| Raise (e : exn).
Arguments Return {A} a.
Arguments Raise {A} e.

(** [s.endswith(suffix)] *)
Fixpoint endswith (s suffix : string) : bool :=
  if String.eqb s suffix then true
  else match s with
       | EmptyString => false
       | String _ s' => endswith s' suffix
       end.

Definition result_bind {A B : Type} (r : result A) (k : A -> result B) : result B :=
  match r with
  | Return a => k a
  | Raise e => Raise e
  end.

(** ** The recognition worker *)

Module Worker.

(** The two signals of [SpeechRecognitionThread]. *)
Inductive signal : Type :=
| finished (text : string)
| error (message : string).

Definition AudioData : Type := list Z.

(** What the calls made by one [run] do. *)
Record Env : Type := mkEnv {
  (** [sr.Microphone()] and entering the [with] block *)
  microphone : result unit;
  (** [recognizer.listen(source, timeout=5, phrase_time_limit=10)] *)
  listen : result AudioData;
  (** [recognizer.recognize_google(audio, language=...)] *)
  recognize_google : AudioData -> string -> result string;
  (** leaving the [with] block: [Microphone.__exit__] *)
  microphone_exit : result unit;
}.

(** What one [run] leaves behind: the signals it emitted, oldest first,
    what it printed, and the exception that left [run], if any. *)
Record outcome : Type := mkOutcome {
  emitted : list signal;
  printed : list string;
  escaped : option exn;
}.

Definition msg_timeout : string := "Listening timed out. Please try again.".
Definition msg_unintelligible : string := "Speech recognition could not understand audio".
Definition msg_request (e : exn) : string :=
  "Could not request results from speech recognition service; " +:+ exn_str e.
Definition msg_unexpected (e : exn) : string :=
  "An unexpected error occurred: " +:+ exn_str e.

(** The chain of [except] clauses of [run], tried in order. *)
Definition handler (e : exn) : signal :=
  match exn_cls e with
  | WaitTimeoutError => error msg_timeout
  | UnknownValueError => error msg_unintelligible
  | RequestError => error (msg_request e)
  | OtherError => error (msg_unexpected e)
  end.

(** The body of the [try]: capture, then recognition. *)
Definition try_body (env : Env) (language : string) : result string :=
  result_bind (listen env) (fun audio => recognize_google env audio language).

(** [run] up to and including its [emit]: the microphone is acquired by
    the [with] statement, which encloses the [try]; the signal is emitted
    inside the block, which is still open. *)
Definition run_until_emit (language : string) (env : Env) : outcome :=
  match microphone env with
  | Raise e => {| emitted := []; printed := []; escaped := Some e |}
  | Return _ =>
      let s := match try_body env language with
               | Return text => finished text
               | Raise e => handler e
               end in
      {| emitted := [s]; printed := ["Say something!"]; escaped := None |}
  end.

(** [SpeechRecognitionThread.run]: when the block was entered, it is left
    after the [emit]; an exception of the release is outside the [try] as
    well and leaves [run] after the signal was emitted. *)
Definition run (language : string) (env : Env) : outcome :=
  let o := run_until_emit language env in
  match escaped o, microphone_exit env with
  | None, Raise e =>
      {| emitted := emitted o; printed := printed o; escaped := Some e |}
  | _, _ => o
  end.


End Worker.

(** ** The application shell *)

Module Shell.

Import Worker.

(** The [languages] dictionary of [TranslationApp.__init__], in insertion
    order: the order of the items of both combo boxes. *)
Definition languages : list (string * string) :=
  [ ("English", "en"); ("Spanish", "es"); ("French", "fr"); ("German", "de");
    ("Italian", "it"); ("Portuguese", "pt"); ("Russian", "ru"); ("Japanese", "ja");
    ("Korean", "ko"); ("Chinese", "zh-CN"); ("Marathi", "mr"); ("Hindi", "hi");
    ("Kannada", "kn") ].

(** [QComboBox.currentData()] of a combo box whose current index is [i]. *)
Definition currentData (i : nat) : string :=
  default "" (snd <$> languages !! i).

(** The instance fields of [TranslationApp] that the handlers read or
    write; a widget is the part of its state the handlers touch. *)
Record App : Type := mkApp {
  source_lang : nat;                  (* current index of the combo box *)
  target_lang : nat;
  input_text : string;
  output_text : string;
  speak_enabled : bool;
  speak_text : string;
  speech_thread : option nat;         (* the thread object last created *)
  temp_audio_file : option string;
  player_source : option string;
  player_playing : bool;
}.

(** A started [SpeechRecognitionThread]: its language, whether [run] is
    still executing, the signals it has emitted that the event loop has not
    dispatched yet, those already dispatched to the slots, and the
    exception that left [run]. *)
Record Thread : Type := mkThread {
  language : string;
  running : bool;
  queue : list signal;
  delivered : list signal;
  died : option exn;
}.

(** Steps of the pipeline, recorded in the order in which they happen. *)
Inductive Action : Type :=
| RecognitionStarted (tid : nat) (lang : string)
| RecognitionEnded (tid : nat) (o : outcome)
| Dispatched (tid : nat) (s : signal)
| TranslationStarted (source target text : string)
| TranslationReturned (translated : string)
| SynthesisStarted (text lang : string)
| SynthesisReturned (path : string)
| ThreadFinished (tid : nat).

(** The application together with what surrounds it. *)
Record World : Type := mkWorld {
  app : App;
  threads : list Thread;              (* by thread id *)
  fs : gset string;                   (* paths that exist *)
  notices : list (string * string);   (* QMessageBox.warning (title, text), newest first *)
  stdout : list string;               (* printed lines, newest first *)
  trace : list Action;                (* newest first *)
  closed : bool;                      (* the application has ended *)
}.

(** Field updates. *)
Definition with_app (f : App -> App) (w : World) : World :=
  mkWorld (f (app w)) (threads w) (fs w) (notices w) (stdout w) (trace w) (closed w).
Definition with_threads (f : list Thread -> list Thread) (w : World) : World :=
  mkWorld (app w) (f (threads w)) (fs w) (notices w) (stdout w) (trace w) (closed w).
Definition with_fs (f : gset string -> gset string) (w : World) : World :=
  mkWorld (app w) (threads w) (f (fs w)) (notices w) (stdout w) (trace w) (closed w).
Definition warning (title text : string) (w : World) : World :=
  mkWorld (app w) (threads w) (fs w) ((title, text) :: notices w) (stdout w) (trace w) (closed w).
Definition print (line : string) (w : World) : World :=
  mkWorld (app w) (threads w) (fs w) (notices w) (line :: stdout w) (trace w) (closed w).
Definition record (a : Action) (w : World) : World :=
  mkWorld (app w) (threads w) (fs w) (notices w) (stdout w) (a :: trace w) (closed w).
Definition accept (w : World) : World :=
  mkWorld (app w) (threads w) (fs w) (notices w) (stdout w) (trace w) true.
(** An exception leaves [QThread.run]: no exception hook is installed, so
    PyQt6 aborts the process; no handler runs any more, [closeEvent]
    included. *)
Definition abort (w : World) : World :=
  mkWorld (app w) (threads w) (fs w) (notices w) (stdout w) (trace w) true.

Definition set_source_lang (i : nat) (a : App) : App :=
  mkApp i (target_lang a) (input_text a) (output_text a) (speak_enabled a)
        (speak_text a) (speech_thread a) (temp_audio_file a) (player_source a)
        (player_playing a).
Definition set_target_lang (i : nat) (a : App) : App :=
  mkApp (source_lang a) i (input_text a) (output_text a) (speak_enabled a)
        (speak_text a) (speech_thread a) (temp_audio_file a) (player_source a)
        (player_playing a).
Definition set_input_text (s : string) (a : App) : App :=
  mkApp (source_lang a) (target_lang a) s (output_text a) (speak_enabled a)
        (speak_text a) (speech_thread a) (temp_audio_file a) (player_source a)
        (player_playing a).
Definition set_output_text (s : string) (a : App) : App :=
  mkApp (source_lang a) (target_lang a) (input_text a) s (speak_enabled a)
        (speak_text a) (speech_thread a) (temp_audio_file a) (player_source a)
        (player_playing a).
Definition setEnabled (b : bool) (a : App) : App :=
  mkApp (source_lang a) (target_lang a) (input_text a) (output_text a) b
        (speak_text a) (speech_thread a) (temp_audio_file a) (player_source a)
        (player_playing a).
Definition setText (s : string) (a : App) : App :=
  mkApp (source_lang a) (target_lang a) (input_text a) (output_text a)
        (speak_enabled a) s (speech_thread a) (temp_audio_file a)
        (player_source a) (player_playing a).
Definition set_speech_thread (t : option nat) (a : App) : App :=
  mkApp (source_lang a) (target_lang a) (input_text a) (output_text a)
        (speak_enabled a) (speak_text a) t (temp_audio_file a)
        (player_source a) (player_playing a).
Definition set_temp_audio_file (p : option string) (a : App) : App :=
  mkApp (source_lang a) (target_lang a) (input_text a) (output_text a)
        (speak_enabled a) (speak_text a) (speech_thread a) p
        (player_source a) (player_playing a).
Definition setSource (p : string) (a : App) : App :=
  mkApp (source_lang a) (target_lang a) (input_text a) (output_text a)
        (speak_enabled a) (speak_text a) (speech_thread a) (temp_audio_file a)
        (Some p) false.
Definition play (a : App) : App :=
  mkApp (source_lang a) (target_lang a) (input_text a) (output_text a)
        (speak_enabled a) (speak_text a) (speech_thread a) (temp_audio_file a)
        (player_source a) (match player_source a with Some _ => true | None => false end).

(** *** Stateful, fallible code: a state monad over [World] with exceptions *)

Definition M (A : Type) : Type := World -> result A * World.

Definition ret {A : Type} (a : A) : M A := fun w => (Return a, w).
Definition bind {A B : Type} (m : M A) (k : A -> M B) : M B :=
  fun w => match m w with
           | (Return a, w') => k a w'
           | (Raise e, w') => (Raise e, w')
           end.
(** A call into a library or service. *)
Definition call {A : Type} (r : result A) : M A := fun w => (r, w).
(** An assignment or a widget call that cannot fail. *)
Definition modify (f : World -> World) : M unit := fun w => (Return tt, f w).
(** [try: m except Exception as e: h e] *)
Definition try_except (m : M unit) (h : exn -> World -> World) : World -> World :=
  fun w => match m w with
           | (Return _, w') => w'
           | (Raise e, w') => h e w'
           end.

Notation "'do' x <- m ; k" := (bind m (fun x => k))
  (at level 10, x name, m at level 99, k at level 200).
Notation "m ;; k" := (bind m (fun _ => k))
  (at level 100, k at level 200, right associativity).

(** What the calls made by the slots of one dispatch do. *)
Record Services : Type := mkServices {
  (** [GoogleTranslator(source=..., target=...)] *)
  GoogleTranslator : string -> string -> result unit;
  (** [translator.translate(source_text)] for these source and target *)
  translate : string -> string -> string -> result string;
  (** [gTTS(text=..., lang=...)] *)
  gTTS : string -> string -> result unit;
  (** [tempfile.gettempdir()] and the random names [tempfile] draws *)
  tempdir : string;
  candidates : list string;
  (** [tts.save(path)] *)
  save : string -> result unit;
  (** [self.player.setSource(QUrl.fromLocalFile(path))] *)
  media_setSource : string -> result unit;
  (** [self.player.play()] *)
  media_play : result unit;
  (** [os.unlink(path)] *)
  unlink : string -> result unit;
}.

Definition suffix_mp3 : string := ".mp3".

Definition temp_path (dir name suffix : string) : string :=
  dir +:+ "/tmp" +:+ name +:+ suffix.

(** [tempfile.NamedTemporaryFile(delete=False, suffix=...)]: the library
    draws random names and creates the file exclusively, so the first
    name whose path does not exist is taken; it raises [FileExistsError]
    when it finds none. *)
Fixpoint first_free (dir suffix : string) (names : list string) (files : gset string)
  : option string :=
  match names with
  | [] => None
  | n :: names' =>
      if bool_decide (temp_path dir n suffix ∈ files)
      then first_free dir suffix names' files
      else Some (temp_path dir n suffix)
  end.

Definition NamedTemporaryFile (sv : Services) (suffix : string) : M string :=
  fun w => match first_free (tempdir sv) suffix (candidates sv) (fs w) with
           | Some p => (Return p, with_fs (fun files => {[p]} ∪ files) w)
           | None => (Raise (Exn OtherError "No usable temporary file name found"), w)
           end.

(** The [try] of [generate_and_play_audio] up to the assignment of
    [self.temp_audio_file]: the synthesis request, the new file, the
    download into it. *)
Definition write_audio (sv : Services) (text lang : string) : M string :=
  do tts <- call (gTTS sv text lang) ;
  do name <- NamedTemporaryFile sv suffix_mp3 ;
  call (save sv name) ;;
  ret name.

(** The body of the [try] of [generate_and_play_audio]. *)
Definition synthesize (sv : Services) (text lang : string) : M unit :=
  modify (record (SynthesisStarted text lang)) ;;
  do name <- write_audio sv text lang ;
  modify (with_app (set_temp_audio_file (Some name))) ;;
  call (media_setSource sv name) ;;
  modify (with_app (setSource name)) ;;
  call (media_play sv) ;;
  modify (with_app play) ;;
  modify (record (SynthesisReturned name)).

(** [TranslationApp.generate_and_play_audio] *)
Definition generate_and_play_audio (sv : Services) (text lang : string) : World -> World :=
  try_except
    (synthesize sv text lang)
    (fun e => warning "Audio Generation Error"
                ("An error occurred while generating audio: " +:+ exn_str e)).

(** The two calls to the translation service made by [translate_text]. *)
Definition translation_step (sv : Services) (source target text : string) : result string :=
  result_bind (GoogleTranslator sv source target)
              (fun translator => translate sv source target text).

(** [TranslationApp.translate_text] *)
Definition translate_text (sv : Services) (source_text : string) : World -> World :=
  fun w =>
  let source_lang := currentData (source_lang (app w)) in
  let target_lang := currentData (target_lang (app w)) in
  try_except
    (modify (record (TranslationStarted source_lang target_lang source_text)) ;;
     do translated_text <- call (translation_step sv source_lang target_lang source_text) ;
     modify (record (TranslationReturned translated_text)) ;;
     modify (with_app (set_output_text translated_text)) ;;
     modify (generate_and_play_audio sv translated_text target_lang))
    (fun e => warning "Translation Error"
                ("An error occurred during translation: " +:+ exn_str e))
    w.

(** [TranslationApp.on_speech_recognized] *)
Definition on_speech_recognized (sv : Services) (text : string) (w : World) : World :=
  let w := with_app (set_input_text text) w in
  let w := with_app (setEnabled true) w in
  let w := with_app (setText "Speak") w in
  translate_text sv text w.

(** [TranslationApp.on_speech_error] *)
Definition on_speech_error (error_message : string) (w : World) : World :=
  let w := with_app (setEnabled true) w in
  let w := with_app (setText "Speak") w in
  warning "Speech Recognition Error" error_message w.

(** [TranslationApp.start_speech_recognition] *)
Definition start_speech_recognition (w : World) : World :=
  let source_lang := currentData (source_lang (app w)) in
  let tid := length (threads w) in
  let w := with_app (set_speech_thread (Some tid)) w in
  let w := with_threads (fun ts => (ts ++ [mkThread source_lang true [] [] None])%list) w in
  let w := record (RecognitionStarted tid source_lang) w in
  let w := with_app (setEnabled false) w in
  with_app (setText "Listening...") w.

(** [TranslationApp.closeEvent]; [if self.temp_audio_file:] holds for a
    path that is neither [None] nor empty. *)
Definition closeEvent (sv : Services) (w : World) : World :=
  let w :=
    match temp_audio_file (app w) with
    | Some (String _ _ as path) =>
        try_except
          (call (unlink sv path) ;;
           modify (with_fs (fun files => files ∖ {[path]})))
          (fun e => print ("Error deleting temporary file: " +:+ exn_str e))
          w
    | _ => w
    end in
  accept w.

(** The world when the window is shown: [TranslationApp.__init__]. *)
Definition init_app : App :=
  {| source_lang := 0; target_lang := 1;
     input_text := ""; output_text := "";
     speak_enabled := true; speak_text := "Speak";
     speech_thread := None; temp_audio_file := None;
     player_source := None; player_playing := false |}.

Definition init (files : gset string) : World :=
  {| app := init_app; threads := []; fs := files; notices := [];
     stdout := []; trace := []; closed := false |}.

(** *** The event loop *)

(** What can happen next: user input, a worker thread running [run] up
    to its [emit], that thread leaving the [with] block and returning from
    [run], the event loop dispatching a queued signal to its slot, the
    window being closed. *)
Inductive Event : Type :=
| Click
| SelectSource (i : nat)
| SelectTarget (i : nat)
| ThreadRuns (tid : nat) (env : Worker.Env)
| Dispatch (tid : nat) (sv : Services)
| Close (sv : Services)
| ThreadReturns (tid : nat) (env : Worker.Env).

(** [run] has emitted: its signals are queued for the event thread, and
    the thread goes on running. *)
Definition thread_emits (o : outcome) (t : Thread) : Thread :=
  mkThread (language t) (running t) (queue t ++ emitted o)%list (delivered t) (died t).

(** [run] returns. *)
Definition thread_returns (t : Thread) : Thread :=
  mkThread (language t) false (queue t) (delivered t) (died t).

(** The exception [e] leaves [run]. *)
Definition thread_dies (e : exn) (t : Thread) : Thread :=
  mkThread (language t) false (queue t) (delivered t) (Some e).

(** A running thread that has not reached its [emit] yet. *)
Definition capturing (t : Thread) : bool :=
  running t && bool_decide (queue t = []) && bool_decide (delivered t = []).

(** A running thread that has emitted and is leaving the [with] block. *)
Definition leaving (t : Thread) : bool :=
  running t && negb (bool_decide (queue t = []) && bool_decide (delivered t = [])).

(** The event loop takes the signal [s] at the head of the queue. *)
Definition thread_dispatched (s : signal) (rest : list signal) (t : Thread) : Thread :=
  mkThread (language t) (running t) rest (delivered t ++ [s])%list (died t).

(** The slot connected to each signal in [start_speech_recognition]. *)
Definition slot (sv : Services) (s : signal) : World -> World :=
  match s with
  | finished text => on_speech_recognized sv text
  | error message => on_speech_error message
  end.

(** One event.  A disabled button does not emit [clicked]; a combo box
    offers its items only; a thread emits before it leaves the [with]
    block, so its signal can be dispatched while it still runs; nothing
    runs once the application has ended. *)
Definition step (ev : Event) (w : World) : World :=
  if closed w then w else
  match ev with
  | Click =>
      if speak_enabled (app w) then start_speech_recognition w else w
  | SelectSource i =>
      if bool_decide (i < length languages) then with_app (set_source_lang i) w else w
  | SelectTarget i =>
      if bool_decide (i < length languages) then with_app (set_target_lang i) w else w
  | ThreadRuns tid env =>
      match threads w !! tid with
      | Some t =>
          if capturing t then
            let o := run_until_emit (language t) env in
            let t' := match escaped o with
                      | Some e => thread_dies e t
                      | None => thread_emits o t
                      end in
            let w := with_threads (fun ts => <[tid := t']> ts) w in
            let w := foldr print w (reverse (printed o)) in
            let w := record (RecognitionEnded tid o) w in
            match escaped o with
            | Some _ => abort w
            | None => w
            end
          else w
      | None => w
      end
  | ThreadReturns tid env =>
      match threads w !! tid with
      | Some t =>
          if leaving t then
            match microphone_exit env with
            | Return _ =>
                let w := with_threads (fun ts => <[tid := thread_returns t]> ts) w in
                record (ThreadFinished tid) w
            | Raise e =>
                abort (with_threads (fun ts => <[tid := thread_dies e t]> ts) w)
            end
          else w
      | None => w
      end
  | Dispatch tid sv =>
      match threads w !! tid with
      | Some t =>
          match queue t with
          | s :: rest =>
              let w := with_threads (fun ts => <[tid := thread_dispatched s rest t]> ts) w in
              let w := record (Dispatched tid s) w in
              slot sv s w
          | [] => w
          end
      | None => w
      end
  | Close sv => closeEvent sv w
  end.

Definition exec (evs : list Event) (w : World) : World :=
  fold_left (fun w ev => step ev w) evs w.

(** A thread whose recognition attempt is under way: [run] has not
    returned, or its notification has not been dispatched yet. *)
Definition in_flight (t : Thread) : bool :=
  running t || negb (bool_decide (queue t = [])).

(** A thread that was triggered and whose outcome has not been delivered. *)
Definition awaiting (t : Thread) : bool :=
  bool_decide (delivered t = []).

End Shell.

(** ** Orderings and invariants of the event loop *)

Module Invariant.

Import Worker Shell.

(** Before the point [before] of the trace, the worker [tid] had come to
    its [emit] without an exception and emitted the recognised [text]. *)
Definition completed (tid : nat) (text : string) (before : list Action) : Prop :=
  exists o, RecognitionEnded tid o ∈ before /\
            emitted o = [finished text] /\ escaped o = None.

(** What must come right before an action ([older] is newest first): a
    translation starts on the dispatch of the [finished] signal of a worker
    that completed with that text, the translation returns after it was
    started, a synthesis starts on the return of the translation of the
    text it is given, and it returns after it was started. *)
Definition follows (a : Action) (older : list Action) : Prop :=
  match a with
  | TranslationStarted _ _ text =>
      exists tid before,
        older = Dispatched tid (finished text) :: before /\
        completed tid text before
  | TranslationReturned _ =>
      exists source target text before,
        older = TranslationStarted source target text :: before
  | SynthesisStarted text _ =>
      exists before, older = TranslationReturned text :: before
  | SynthesisReturned _ =>
      exists text lang before, older = SynthesisStarted text lang :: before
  | _ => True
  end.

Fixpoint ordered (tr : list Action) : Prop :=
  match tr with
  | [] => True
  | a :: older => follows a older /\ ordered older
  end.

(** The stricter order: when a translation starts, the worker whose signal
    was dispatched has returned from [run]. *)
Fixpoint returned_first (tr : list Action) : Prop :=
  match tr with
  | [] => True
  | TranslationStarted _ _ text :: older =>
      (exists tid before,
         older = Dispatched tid (finished text) :: before /\
         ThreadFinished tid ∈ before) /\
      returned_first older
  | _ :: older => returned_first older
  end.

(** A thread emits at most one signal, and a queued signal is the one its
    [run] emitted. *)
Definition thread_ok (w : World) (tid : nat) (t : Thread) : Prop :=
  length (queue t) + length (delivered t) <= 1 /\
  (forall s, s ∈ queue t ->
     exists o, RecognitionEnded tid o ∈ trace w /\
               emitted o = [s] /\ escaped o = None).

Definition settled (t : Thread) : Prop :=
  queue t = [] /\ delivered t <> [].

(** While the button is enabled every thread has had its outcome
    delivered; while it is disabled the newest thread has not, and all
    older ones have. *)
Definition button_ok (w : World) : Prop :=
  if speak_enabled (app w)
  then speak_text (app w) = "Speak" /\
       (forall tid t, threads w !! tid = Some t -> settled t)
  else speak_text (app w) = "Listening..." /\
       threads w <> [] /\
       (forall tid t, threads w !! tid = Some t ->
          if decide (S tid = length (threads w))
          then delivered t = []
          else settled t).

(** Until the window closes, the tracked audio file and every file a
    synthesis returned exist. *)
Definition files_ok (w : World) : Prop :=
  closed w = false ->
  forall q, temp_audio_file (app w) = Some q \/ SynthesisReturned q ∈ trace w ->
            q ∈ fs w.

Record Inv (w : World) : Prop := mkInv {
  inv_ordered : ordered (trace w);
  inv_threads : forall tid t, threads w !! tid = Some t -> thread_ok w tid t;
  inv_button : button_ok w;
  inv_files : files_ok w;
}.

End Invariant.

Import Worker Shell Invariant.

(** * Scenarios *)

(** A machine without an input device: [sr.Microphone()] raises [OSError]. *)
Definition no_input_device : Worker.Env :=
  {| microphone := Raise (Exn OtherError "No Default Input Device Available");
     listen := Return [];
     recognize_google := fun _ _ => Return "";
     microphone_exit := Return tt |}.


(** A capture the service cannot make sense of. *)
Definition mumbled_capture : Worker.Env :=
  {| microphone := Return tt;
     listen := Return [0; 0; 0]%Z;
     recognize_google := fun _ _ => Raise (Exn UnknownValueError "");
     microphone_exit := Return tt |}.

(** A capture the service transcribes; the text names the language code
    the request was made with. *)
Definition heard : Worker.Env :=
  {| microphone := Return tt;
     listen := Return [12; -7; 3]%Z;
     recognize_google := fun _ lang => Return ("(" +:+ lang +:+ ") hello world");
     microphone_exit := Return tt |}.

(** All services reachable; the translation names the codes it was asked
    for; [names] are the random names the temporary-file library draws. *)
Definition online (names : list string) : Services :=
  {| GoogleTranslator := fun _ _ => Return tt;
     translate := fun source target text =>
                    Return (source +:+ "->" +:+ target +:+ ": " +:+ text);
     gTTS := fun _ _ => Return tt;
     tempdir := "/tmp";
     candidates := names;
     save := fun _ => Return tt;
     media_setSource := fun _ => Return tt;
     media_play := Return tt;
     unlink := fun _ => Return tt |}.

(** One full cycle: press the button, the worker hears a phrase, the
    event loop dispatches its signal. *)
Definition cycle (tid : nat) (names : list string) : list Event :=
  [Click; ThreadRuns tid heard; Dispatch tid (online names)].

(** Two cycles; the second draws the name of the first before a new one. *)
Definition two_cycles : list Event :=
  (cycle 0 ["k3x9q2ab"] ++ cycle 1 ["k3x9q2ab"; "p0w8e7cd"])%list.

(** The user clicks again right after the dispatch, before the first
    worker has left its [with] block. *)
Definition early_retry : list Event :=
  [Click; ThreadRuns 0 heard; Dispatch 0 (online ["k3x9q2ab"]); Click].


(** The translation service cannot be reached. *)
Definition translation_down : Services :=
  {| GoogleTranslator := fun _ _ => Return tt;
     translate := fun _ _ _ => Raise (Exn OtherError "translation connection failed");
     gTTS := fun _ _ => Return tt;
     tempdir := "/tmp";
     candidates := ["k3x9q2ab"];
     save := fun _ => Return tt;
     media_setSource := fun _ => Return tt;
     media_play := Return tt;
     unlink := fun _ => Return tt |}.

(** The synthesis service fails while the audio is being saved. *)
Definition synthesis_down (names : list string) : Services :=
  {| GoogleTranslator := fun _ _ => Return tt;
     translate := fun source target text =>
                    Return (source +:+ "->" +:+ target +:+ ": " +:+ text);
     gTTS := fun _ _ => Return tt;
     tempdir := "/tmp";
     candidates := names;
     save := fun _ => Raise (Exn OtherError "synthesis connection failed");
     media_setSource := fun _ => Return tt;
     media_play := Return tt;
     unlink := fun _ => Return tt |}.

(** * Proof automation *)

(** Unfolds a slot down to the oracle calls and splits on their results. *)
Ltac slot_unfold :=
  unfold slot, on_speech_recognized, on_speech_error, translate_text,
    generate_and_play_audio, synthesize, write_audio, closeEvent, try_except,
    bind, ret, call, modify, NamedTemporaryFile, translation_step, result_bind in *.

Ltac oracle_cases :=
  repeat (cbn;
    match goal with
    | |- context [GoogleTranslator ?sv ?a ?b] => destruct (GoogleTranslator sv a b) eqn:?
    | |- context [translate ?sv ?a ?b ?c] => destruct (translate sv a b c) eqn:?
    | |- context [gTTS ?sv ?a ?b] => destruct (gTTS sv a b) eqn:?
    | |- context [first_free ?a ?b ?c ?d] => destruct (first_free a b c d) eqn:?
    | |- context [save ?sv ?a] => destruct (save sv a) eqn:?
    | |- context [media_setSource ?sv ?a] => destruct (media_setSource sv a) eqn:?
    | |- context [media_play ?sv] => destruct (media_play sv) eqn:?
    | |- context [unlink ?sv ?a] => destruct (unlink sv a) eqn:?
    end); cbn.

(** * Observations on runs *)

Module Observe.

(** The codes of the [languages] table. *)
Definition codes : list string := languages.*2.

(** The titles of the three [QMessageBox.warning] calls. *)
Definition titles : list string :=
  ["Speech Recognition Error"; "Translation Error"; "Audio Generation Error"].

(** The text of the newest [finished] signal dispatched so far. *)
Fixpoint last_recognized (tr : list Action) : option string :=
  match tr with
  | [] => None
  | Dispatched _ (finished text) :: _ => Some text
  | _ :: older => last_recognized older
  end.

(** The newest translation returned so far. *)
Fixpoint last_translated (tr : list Action) : option string :=
  match tr with
  | [] => None
  | TranslationReturned translated :: _ => Some translated
  | _ :: older => last_translated older
  end.

(** The language codes of the request an action makes are in the table. *)
Definition supported (a : Action) : Prop :=
  match a with
  | RecognitionStarted _ lang => lang ∈ codes
  | TranslationStarted source target _ => source ∈ codes /\ target ∈ codes
  | SynthesisStarted _ lang => lang ∈ codes
  | _ => True
  end.

Definition is_dispatch (ev : Event) : bool :=
  match ev with
  | Dispatch _ _ => true
  | _ => false
  end.

Definition is_close (ev : Event) : bool :=
  match ev with
  | Close _ => true
  | _ => false
  end.

(** The events of a worker thread. *)
Definition is_worker (ev : Event) : bool :=
  match ev with
  | ThreadRuns _ _ | ThreadReturns _ _ => true
  | _ => false
  end.

(** The actions a worker thread records. *)
Definition of_worker (a : Action) : Prop :=
  match a with
  | RecognitionEnded _ _ | ThreadFinished _ => True
  | _ => False
  end.

(** One click, the run of the thread it starts up to its [emit], the
    dispatch of what that thread emitted. *)
Definition one_cycle (w : World) (env : Worker.Env) (sv : Services) : list Event :=
  [Click; ThreadRuns (length (threads w)) env; Dispatch (length (threads w)) sv].

End Observe.

Import Observe.

(** * Properties of the recognition worker *)

Section WorkerFacts.

Variable language : string.
Variable env : Worker.Env.


(** Without it, the exception of the [with] statement leaves [run]. *)
Lemma run_without_microphone (e : exn) :
  microphone env = Raise e ->
  emitted (run language env) = [] /\ escaped (run language env) = Some e.
Proof.
  intros Hmic. unfold run, run_until_emit. rewrite Hmic. cbn. auto.
Qed.


(** In every case at most one signal is emitted. *)
Lemma run_emits_at_most_once : length (emitted (run_until_emit language env)) <= 1.
Proof.
  unfold run_until_emit. destruct (microphone env); cbn; lia.
Qed.

End WorkerFacts.


(** C1 (fails on the code): when the microphone cannot be opened, [run]
    emits no signal at all and the exception leaves the worker, although
    every run should end with exactly one notification and no exception. *)
Theorem C1_microphone_failure_escapes :
  emitted (run "en" no_input_device) = [] /\
  escaped (run "en" no_input_device)
    = Some (Exn OtherError "No Default Input Device Available").
Proof.
  split; reflexivity.
Qed.




(** * Properties of the slots *)

Lemma endswith_app (a b suffix : string) :
  endswith b suffix = true -> endswith (a +:+ b) suffix = true.
Proof.
  intros Hb. induction a as [|c a IH]; [exact Hb|].
  change (endswith (String c a +:+ b) suffix)
    with (if String.eqb (String c (a +:+ b)) suffix then true
          else endswith (a +:+ b) suffix).
  rewrite IH. destruct (String.eqb _ _); reflexivity.
Qed.

Lemma endswith_refl (s : string) : endswith s s = true.
Proof.
  destruct s as [|c s]; [reflexivity|].
  change (endswith (String c s) (String c s))
    with (if String.eqb (String c s) (String c s) then true
          else endswith s (String c s)).
  rewrite String.eqb_refl. reflexivity.
Qed.

Lemma temp_path_suffix (dir name suffix : string) :
  endswith (temp_path dir name suffix) suffix = true.
Proof.
  unfold temp_path. do 3 apply endswith_app. apply endswith_refl.
Qed.

Lemma first_free_spec (dir suffix : string) (names : list string)
      (files : gset string) (p : string) :
  first_free dir suffix names files = Some p ->
  (p ∉ files) /\ endswith p suffix = true.
Proof.
  induction names as [|n names IH]; cbn; [discriminate|].
  case_bool_decide as Hin; [exact IH|].
  intros [= <-]. split; [exact Hin|apply temp_path_suffix].
Qed.

(** C3: whatever exception the capture or the recognition call raised, the
    slot that receives the worker's error signal shows one notice carrying
    the worker's message, leaves both text panes as they were and puts the
    button back to enabled with the label Speak. *)
Theorem C3_recognition_failure_notice (sv : Services) (e : exn) (w : World) :
  exists message,
    handler e = error message /\
    message ∈ [msg_timeout; msg_unintelligible; msg_request e; msg_unexpected e] /\
    let w' := slot sv (handler e) w in
    notices w' = ("Speech Recognition Error", message) :: notices w /\
    input_text (app w') = input_text (app w) /\
    output_text (app w') = output_text (app w) /\
    speak_enabled (app w') = true /\
    speak_text (app w') = "Speak".
Proof.
  unfold handler.
  destruct (exn_cls e); eexists; (split; [reflexivity|]);
    (split; [set_solver|]); cbn; auto.
Qed.

(** The outcome of the [try] body of [generate_and_play_audio] depends on
    the world only through the files that exist. *)
Lemma synthesize_result_fs (sv : Services) (text lang : string) (w1 w2 : World) :
  fs w1 = fs w2 ->
  (synthesize sv text lang w1).1 = (synthesize sv text lang w2).1.
Proof.
  intros Hfs. slot_unfold. cbn. rewrite Hfs.
  oracle_cases; reflexivity.
Qed.

Lemma write_audio_result_fs (sv : Services) (text lang : string) (w1 w2 : World) :
  fs w1 = fs w2 ->
  (write_audio sv text lang w1).1 = (write_audio sv text lang w2).1.
Proof.
  intros Hfs. slot_unfold. cbn. rewrite Hfs.
  oracle_cases; reflexivity.
Qed.

(** A failed synthesis shows the audio notice and leaves the text panes
    and the button alone. *)
Lemma generate_and_play_audio_failure (sv : Services) (text lang : string)
      (w : World) (e : exn) :
  (synthesize sv text lang w).1 = Raise e ->
  let w' := generate_and_play_audio sv text lang w in
  output_text (app w') = output_text (app w) /\
  notices w' = ("Audio Generation Error",
                "An error occurred while generating audio: " +:+ exn_str e)
               :: notices w.
Proof.
  slot_unfold. cbn.
  oracle_cases; cbn; intros H; try discriminate H; injection H as <-; auto.
Qed.

(** When it fails before the path of the new file is assigned, no field
    of the application changes. *)
Lemma generate_and_play_audio_early_failure (sv : Services) (text lang : string)
      (w : World) (e : exn) :
  (write_audio sv text lang w).1 = Raise e ->
  (synthesize sv text lang w).1 = Raise e /\
  app (generate_and_play_audio sv text lang w) = app w.
Proof.
  slot_unfold. cbn.
  oracle_cases; cbn; intros H; try discriminate H; injection H as <-; auto.
Qed.


(** C4: when the translation service fails on the recognised text, the
    recognised-text pane holds that text, the translated-text pane is as
    before, one translation notice is shown, and the button is enabled
    with the label Speak. *)
Theorem C4_translation_failure (sv : Services) (text : string) (w : World) (e : exn) :
  translation_step sv (currentData (source_lang (app w)))
                   (currentData (target_lang (app w))) text = Raise e ->
  let w' := on_speech_recognized sv text w in
  input_text (app w') = text /\
  output_text (app w') = output_text (app w) /\
  notices w' = ("Translation Error",
                "An error occurred during translation: " +:+ exn_str e)
               :: notices w /\
  speak_enabled (app w') = true /\
  speak_text (app w') = "Speak" /\
  temp_audio_file (app w') = temp_audio_file (app w) /\
  fs w' = fs w.
Proof.
  intros Hfail. unfold on_speech_recognized, translate_text, try_except, bind,
    call, modify. cbn. rewrite Hfail. cbn. auto 10.
Qed.

(** C10: when the translation returned and the synthesis then fails, the
    translated-text pane holds the translation and the one notice shown
    is the audio notice; when the failure comes before the path of the
    new file is assigned, the tracked audio file and the player are as
    before. *)
Theorem C10_synthesis_failure (sv : Services) (text translated : string)
        (w : World) (e : exn) :
  let target := currentData (target_lang (app w)) in
  translation_step sv (currentData (source_lang (app w))) target text
    = Return translated ->
  (synthesize sv translated target w).1 = Raise e ->
  let w' := translate_text sv text w in
  output_text (app w') = translated /\
  notices w' = ("Audio Generation Error",
                "An error occurred while generating audio: " +:+ exn_str e)
               :: notices w /\
  ((write_audio sv translated target w).1 = Raise e ->
   temp_audio_file (app w') = temp_audio_file (app w) /\
   player_source (app w') = player_source (app w) /\
   player_playing (app w') = player_playing (app w)).
Proof.
  intros target Htr Hsyn.
  unfold translate_text, try_except, bind, call, modify. cbn.
  fold target. rewrite Htr. cbn.
  match goal with
  | |- context [generate_and_play_audio sv translated target ?w0] =>
      set (w1 := w0)
  end.
  assert (Hsyn1 : (synthesize sv translated target w1).1 = Raise e)
    by (rewrite <- Hsyn; apply synthesize_result_fs; reflexivity).
  destruct (generate_and_play_audio_failure _ _ _ _ _ Hsyn1) as [Hout Hnot].
  rewrite Hout, Hnot. split; [reflexivity|]. split; [reflexivity|].
  intros Hearly.
  assert (Hearly1 : (write_audio sv translated target w1).1 = Raise e)
    by (rewrite <- Hearly; apply write_audio_result_fs; reflexivity).
  destruct (generate_and_play_audio_early_failure _ _ _ _ _ Hearly1) as [_ Happ].
  rewrite Happ. cbn. auto.
Qed.

(** C7, amended: closing the window deletes the tracked audio file, the
    one of the last successful synthesis, when there is one; when the
    deletion fails the failure is printed, no notice is shown, and the
    close event is accepted in every case. *)
Theorem C7_close_deletes_tracked_file (sv : Services) (w : World) :
  let w' := closeEvent sv w in
  closed w' = true /\
  notices w' = notices w /\
  match temp_audio_file (app w) with
  | Some (String _ _ as path) =>
      match unlink sv path with
      | Return _ => fs w' = fs w ∖ {[path]} /\ stdout w' = stdout w
      | Raise e =>
          fs w' = fs w /\
          stdout w' = ("Error deleting temporary file: " +:+ exn_str e) :: stdout w
      end
  | _ => fs w' = fs w /\ stdout w' = stdout w
  end.
Proof.
  slot_unfold. cbn.
  destruct (temp_audio_file (app w)) as [[|c path]|]; cbn; [auto| |auto].
  destruct (unlink sv (String c path)); cbn; auto.
Qed.

(** * The invariant of the event loop *)

Lemma slot_frame (sv : Services) (s : signal) (w : World) :
  threads (slot sv s w) = threads w /\
  closed (slot sv s w) = closed w /\
  speak_enabled (app (slot sv s w)) = true /\
  speak_text (app (slot sv s w)) = "Speak".
Proof.
  destruct s; slot_unfold; oracle_cases; auto.
Qed.

Lemma slot_trace_grows (sv : Services) (s : signal) (w : World) :
  exists new, trace (slot sv s w) = (new ++ trace w)%list.
Proof.
  destruct s; slot_unfold; oracle_cases;
    first [ by exists [] | by eexists [_] | by eexists [_; _]
          | by eexists [_; _; _] | by eexists [_; _; _; _] ].
Qed.

Lemma slot_ordered (sv : Services) (s : signal) (w : World) :
  ordered (trace w) ->
  (forall text, s = finished text ->
     exists tid before,
       trace w = Dispatched tid (finished text) :: before /\
       completed tid text before) ->
  ordered (trace (slot sv s w)).
Proof.
  intros Hord Hdisp. destruct s as [text|message].
  - destruct (Hdisp text eq_refl) as (tid & before & Htr & Hdone).
    rewrite Htr in Hord. cbn in Hord. destruct Hord as [_ Hord].
    slot_unfold; oracle_cases; rewrite Htr; cbn;
      repeat first [ exact Hord | exact Hdone | exact I | reflexivity
                   | split | eexists ].
  - slot_unfold; cbn. exact Hord.
Qed.

Lemma slot_files (sv : Services) (s : signal) (w : World) :
  files_ok w -> files_ok (slot sv s w).
Proof.
  unfold files_ok. intros Hfiles.
  destruct s as [text|message]; slot_unfold; oracle_cases; cbn in *;
    intros Hopen q Hq; specialize (Hfiles Hopen);
    (destruct Hq as [Hq|Hq];
     [ first [ injection Hq as <-; apply elem_of_union_l, elem_of_singleton;
               reflexivity
             | apply Hfiles; auto; fail
             | apply elem_of_union_r, Hfiles; auto ]
     | repeat (apply elem_of_cons in Hq as [Hq|Hq];
               [ first [ discriminate Hq
                       | injection Hq as <-;
                         apply elem_of_union_l, elem_of_singleton; reflexivity ]
               | ]);
       first [ apply Hfiles; auto; fail
             | apply elem_of_union_r, Hfiles; auto ] ]).
Qed.

Lemma thread_ok_mono (w w' : World) (tid : nat) (t : Thread) :
  (forall a, a ∈ trace w -> a ∈ trace w') ->
  thread_ok w tid t -> thread_ok w' tid t.
Proof.
  intros Hsub (Hlen & Hq). split; [exact Hlen|].
  intros s Hs. destruct (Hq s Hs) as (o & Ho & Hem). eauto.
Qed.

Lemma run_emitted (lang : string) (env : Worker.Env) (s : signal) :
  s ∈ emitted (run_until_emit lang env) ->
  emitted (run_until_emit lang env) = [s] /\
  escaped (run_until_emit lang env) = None.
Proof.
  unfold run_until_emit. destruct (microphone env); cbn; intros Hs.
  - apply list_elem_of_singleton in Hs. subst s. auto.
  - apply elem_of_nil in Hs. destruct Hs.
Qed.

Lemma Inv_init (files : gset string) : Inv (init files).
Proof.
  split; cbn.
  - exact I.
  - intros tid t H. discriminate H.
  - unfold button_ok; cbn. split; [reflexivity|]. intros tid t H. discriminate H.
  - intros _ q [H|H]; [discriminate H|]. cbn in H. apply elem_of_nil in H. destruct H.
Qed.

Lemma Inv_select (f : App -> App) (w : World) :
  (forall a, speak_enabled (f a) = speak_enabled a /\
             speak_text (f a) = speak_text a /\
             temp_audio_file (f a) = temp_audio_file a) ->
  Inv w -> Inv (with_app f w).
Proof.
  intros Hf [Hord Hthr Hbtn Hfiles].
  destruct (Hf (app w)) as (He & Ht & Hp).
  split; cbn.
  - exact Hord.
  - intros tid t H. apply (thread_ok_mono w); [auto|]. apply Hthr, H.
  - unfold button_ok in *; cbn. rewrite He, Ht. exact Hbtn.
  - unfold files_ok in *; cbn. rewrite Hp. exact Hfiles.
Qed.

Lemma Inv_click (w : World) :
  speak_enabled (app w) = true -> Inv w -> Inv (start_speech_recognition w).
Proof.
  intros Hen [Hord Hthr Hbtn Hfiles].
  unfold button_ok in Hbtn. rewrite Hen in Hbtn. destruct Hbtn as [_ Hset].
  split; cbn.
  - auto.
  - intros tid t H. apply lookup_app_Some in H as [H|[Hge H]].
    + apply (thread_ok_mono w); [|apply Hthr, H].
      intros a Ha. apply elem_of_cons. auto.
    + apply list_lookup_singleton_Some in H as [_ <-].
      split; cbn; [lia|]. intros s Hs. apply elem_of_nil in Hs. destruct Hs.
  - unfold button_ok; cbn. split; [reflexivity|].
    split; [destruct (threads w); discriminate|].
    intros tid t H. rewrite length_app. cbn.
    apply lookup_app_Some in H as [H|[Hge H]].
    + apply lookup_lt_Some in H as Hlt.
      destruct (decide _); [lia|]. eapply Hset, H.
    + apply list_lookup_singleton_Some in H as [Htid <-].
      destruct (decide _); [reflexivity|lia].
  - unfold files_ok in *; cbn. intros Hopen q [Hq|Hq].
    + apply Hfiles; auto.
    + apply elem_of_cons in Hq as [Hq|Hq]; [discriminate Hq|]. apply Hfiles; auto.
Qed.

Lemma foldr_print_frame (lines : list string) (w : World) :
  app (foldr print w lines) = app w /\
  threads (foldr print w lines) = threads w /\
  fs (foldr print w lines) = fs w /\
  notices (foldr print w lines) = notices w /\
  trace (foldr print w lines) = trace w /\
  closed (foldr print w lines) = closed w.
Proof.
  induction lines as [|l lines IH]; cbn; [auto 10|exact IH].
Qed.

(** A thread with a signal queued, or with nothing delivered yet, is the
    newest one, nothing of it has been delivered, and the button is
    disabled. *)
Lemma in_flight_is_newest (w : World) (tid : nat) (t : Thread) :
  Inv w -> threads w !! tid = Some t ->
  queue t <> [] \/ delivered t = [] ->
  speak_enabled (app w) = false /\ S tid = length (threads w) /\
  delivered t = [].
Proof.
  intros [_ Hthr Hbtn _] Ht Hfl.
  assert (Hdel : delivered t = []).
  { destruct Hfl as [Hq|Hd]; [|exact Hd].
    destruct (Hthr tid t Ht) as [Hlen _].
    destruct (queue t); [congruence|].
    destruct (delivered t); [reflexivity|cbn in Hlen; lia]. }
  unfold button_ok in Hbtn.
  destruct (speak_enabled (app w)).
  - destruct Hbtn as [_ Hset]. destruct (Hset tid t Ht) as (_ & Hd). congruence.
  - destruct Hbtn as (_ & _ & Hall). specialize (Hall tid t Ht).
    destruct (decide _) as [Hlast|_]; [auto|].
    destruct Hall as (_ & Hd). congruence.
Qed.

Lemma capturing_spec (t : Thread) :
  capturing t = true -> running t = true /\ queue t = [] /\ delivered t = [].
Proof.
  unfold capturing. intros H.
  apply andb_prop in H as [H Hd]. apply andb_prop in H as [Hr Hq].
  apply bool_decide_eq_true in Hq, Hd. auto.
Qed.

(** The end of the application changes nothing else. *)
Lemma Inv_abort (w : World) : Inv w -> Inv (abort w).
Proof.
  intros [Hord Hthr Hbtn Hfiles]. split; cbn.
  - exact Hord.
  - intros tid t H. apply (thread_ok_mono w); [auto|apply Hthr, H].
  - exact Hbtn.
  - unfold files_ok; cbn. discriminate.
Qed.

(** A thread that has emitted nothing so far comes to its [emit] or dies
    before it. *)
Lemma Inv_thread_runs (w : World) (tid : nat) (t t' : Thread) (o : outcome)
      (lines : list string) :
  threads w !! tid = Some t -> delivered t = [] ->
  delivered t' = [] -> length (queue t') <= 1 ->
  (forall s, s ∈ queue t' -> emitted o = [s] /\ escaped o = None) ->
  Inv w ->
  Inv (record (RecognitionEnded tid o)
         (foldr print (with_threads (fun ts => <[tid := t']> ts) w) lines)).
Proof.
  intros Ht Hdel Hdel' Hlen' Hq' HI.
  destruct (in_flight_is_newest w tid t HI Ht (or_intror Hdel)) as (Hdis & Hlast & _).
  destruct HI as [Hord Hthr Hbtn Hfiles].
  match goal with |- Inv (record _ (foldr print ?w0 ?l)) =>
    destruct (foldr_print_frame l w0) as (Fa & Ft & Ff & Fn & Ftr & Fc)
  end.
  split; cbn; rewrite ?Fa, ?Ft, ?Ff, ?Ftr, ?Fc; cbn.
  - auto.
  - intros tid' t'' H. destruct (decide (tid = tid')) as [<-|Hne].
    + rewrite list_lookup_insert_eq in H by (eapply lookup_lt_Some, Ht).
      injection H as <-. split; [rewrite Hdel'; cbn; lia|].
      intros s Hs. exists o. split; [apply elem_of_cons; auto|]. apply Hq', Hs.
    + rewrite list_lookup_insert_ne in H by exact Hne.
      apply (thread_ok_mono w); [|apply Hthr, H].
      cbn. rewrite Ftr. cbn. intros a Ha. apply elem_of_cons. auto.
  - unfold button_ok in *; cbn. rewrite Fa, Ft. cbn. rewrite Hdis in *.
    destruct Hbtn as (Hlabel & Hne & Hall). split; [exact Hlabel|].
    split; [intros Hnil; apply (f_equal length) in Hnil;
            rewrite length_insert in Hnil; cbn in Hnil; lia|].
    intros tid' t'' H. rewrite length_insert.
    destruct (decide (tid = tid')) as [<-|Hneq].
    + rewrite list_lookup_insert_eq in H by (eapply lookup_lt_Some, Ht).
      injection H as <-. destruct (decide _); [exact Hdel'|lia].
    + rewrite list_lookup_insert_ne in H by exact Hneq. apply Hall, H.
  - unfold files_ok in *; cbn. rewrite Fa, Ff, Ftr, Fc. cbn.
    intros Hopen q [Hq|Hq].
    + apply Hfiles; auto.
    + apply elem_of_cons in Hq as [Hq|Hq]; [discriminate Hq|]. apply Hfiles; auto.
Qed.

(** A thread returning from [run], or dying on its way out, keeps what it
    has emitted. *)
Lemma Inv_thread_leaves (w : World) (tid : nat) (t t' : Thread) :
  threads w !! tid = Some t ->
  queue t' = queue t -> delivered t' = delivered t ->
  Inv w -> Inv (with_threads (fun ts => <[tid := t']> ts) w).
Proof.
  intros Ht Hq' Hd' [Hord Hthr Hbtn Hfiles].
  assert (Hsame : forall tid' t'',
             <[tid := t']> (threads w) !! tid' = Some t'' ->
             exists t0, threads w !! tid' = Some t0 /\
                        queue t'' = queue t0 /\ delivered t'' = delivered t0).
  { intros tid' t'' H. destruct (decide (tid = tid')) as [<-|Hne].
    - rewrite list_lookup_insert_eq in H by (eapply lookup_lt_Some, Ht).
      injection H as <-. eauto.
    - rewrite list_lookup_insert_ne in H by exact Hne. eauto. }
  split; cbn.
  - exact Hord.
  - intros tid' t'' H. destruct (Hsame _ _ H) as (t0 & H0 & Hq0 & Hd0).
    destruct (Hthr tid' t0 H0) as [Hlen Hsrc].
    unfold thread_ok. rewrite Hq0, Hd0. split; [exact Hlen|exact Hsrc].
  - unfold button_ok in *; cbn. rewrite length_insert.
    destruct (speak_enabled (app w)).
    + destruct Hbtn as [Hlabel Hset]. split; [exact Hlabel|].
      intros tid' t'' H. destruct (Hsame _ _ H) as (t0 & H0 & Hq0 & Hd0).
      unfold settled. rewrite Hq0, Hd0. eapply Hset, H0.
    + destruct Hbtn as (Hlabel & Hne & Hall). split; [exact Hlabel|].
      split; [intros Hnil; apply (f_equal length) in Hnil;
              rewrite length_insert in Hnil; destruct (threads w);
              [congruence|discriminate Hnil]|].
      intros tid' t'' H. destruct (Hsame _ _ H) as (t0 & H0 & Hq0 & Hd0).
      specialize (Hall tid' t0 H0). unfold settled in *.
      rewrite Hq0, Hd0. exact Hall.
  - exact Hfiles.
Qed.

Lemma Inv_thread_finished (tid : nat) (w : World) :
  Inv w -> Inv (record (ThreadFinished tid) w).
Proof.
  intros [Hord Hthr Hbtn Hfiles]. split; cbn.
  - auto.
  - intros tid' t H. apply (thread_ok_mono w); [|apply Hthr, H].
    intros a Ha. apply elem_of_cons. auto.
  - exact Hbtn.
  - unfold files_ok in *; cbn. intros Hopen q [Hq|Hq].
    + apply Hfiles; auto.
    + apply elem_of_cons in Hq as [Hq|Hq]; [discriminate Hq|]. apply Hfiles; auto.
Qed.

Lemma Inv_dispatch (w : World) (tid : nat) (t : Thread) (s : signal)
      (rest : list signal) (sv : Services) :
  threads w !! tid = Some t -> queue t = s :: rest -> Inv w ->
  Inv (slot sv s
         (record (Dispatched tid s)
            (with_threads (fun ts => <[tid := thread_dispatched s rest t]> ts) w))).
Proof.
  intros Ht Hqueue HI.
  assert (Hfl : queue t <> [] \/ delivered t = []) by (left; congruence).
  destruct (in_flight_is_newest w tid t HI Ht Hfl) as (Hdis & Hlast & Hdel).
  destruct HI as [Hord Hthr Hbtn Hfiles].
  destruct (Hthr tid t Ht) as (Hlen & Hsrc).
  assert (Hrest : rest = []).
  { rewrite Hqueue in Hlen. cbn in Hlen. destruct rest; [reflexivity|cbn in Hlen; lia]. }
  subst rest.
  set (w1 := record (Dispatched tid s) (with_threads _ w)).
  destruct (slot_frame sv s w1) as (Sthr & Scl & Sen & Slabel).
  destruct (slot_trace_grows sv s w1) as [new Str].
  assert (Hsub : forall a, a ∈ trace w -> a ∈ trace (slot sv s w1)).
  { intros a Ha. rewrite Str. cbn. apply elem_of_app. right.
    apply elem_of_cons. auto. }
  split.
  - apply slot_ordered; [cbn; auto|].
    intros text ->. exists tid, (trace w). split; [reflexivity|].
    apply Hsrc. rewrite Hqueue. apply elem_of_cons. auto.
  - rewrite Sthr. cbn. intros tid' t' H.
    destruct (decide (tid = tid')) as [<-|Hne].
    + rewrite list_lookup_insert_eq in H by (eapply lookup_lt_Some, Ht).
      injection H as <-. unfold thread_ok; cbn. rewrite Hdel. cbn.
      split; [lia|].
      intros s' Hs'. apply elem_of_nil in Hs'. destruct Hs'.
    + rewrite list_lookup_insert_ne in H by exact Hne.
      apply (thread_ok_mono w); [exact Hsub|apply Hthr, H].
  - unfold button_ok in *. rewrite Sen, Slabel, Sthr. cbn.
    rewrite Hdis in Hbtn. destruct Hbtn as (_ & _ & Hall).
    split; [reflexivity|]. intros tid' t' H.
    destruct (decide (tid = tid')) as [<-|Hne].
    + rewrite list_lookup_insert_eq in H by (eapply lookup_lt_Some, Ht).
      injection H as <-. unfold settled; cbn. rewrite Hdel.
      split; [reflexivity|discriminate].
    + rewrite list_lookup_insert_ne in H by exact Hne.
      specialize (Hall tid' t' H). destruct (decide _); [lia|exact Hall].
  - apply slot_files. unfold files_ok in *; cbn.
    intros Hopen q [Hq|Hq].
    + apply Hfiles; auto.
    + apply elem_of_cons in Hq as [Hq|Hq]; [discriminate Hq|]. apply Hfiles; auto.
Qed.

Lemma Inv_close (sv : Services) (w : World) : Inv w -> Inv (closeEvent sv w).
Proof.
  intros [Hord Hthr Hbtn Hfiles].
  assert (Hframe : trace (closeEvent sv w) = trace w /\
                   threads (closeEvent sv w) = threads w /\
                   app (closeEvent sv w) = app w /\
                   closed (closeEvent sv w) = true).
  { slot_unfold. destruct (temp_audio_file (app w)) as [[|c path]|];
      oracle_cases; auto. }
  destruct Hframe as (Ftr & Fthr & Fapp & Fcl).
  split.
  - rewrite Ftr. exact Hord.
  - rewrite Fthr. intros tid t H.
    apply (thread_ok_mono w); [rewrite Ftr; auto|apply Hthr, H].
  - unfold button_ok in *. rewrite Fapp, Fthr. exact Hbtn.
  - unfold files_ok. rewrite Fcl. discriminate.
Qed.

Lemma Inv_step (ev : Event) (w : World) : Inv w -> Inv (step ev w).
Proof.
  intros HI. unfold step. destruct (closed w); [exact HI|].
  destruct ev as [|i|i|tid env|tid sv|sv|tid env].
  - destruct (speak_enabled (app w)) eqn:Hen; [|exact HI].
    apply Inv_click; assumption.
  - case_bool_decide; [|exact HI]. apply Inv_select; [|exact HI]. intros a; cbn; auto.
  - case_bool_decide; [|exact HI]. apply Inv_select; [|exact HI]. intros a; cbn; auto.
  - destruct (threads w !! tid) as [t|] eqn:Ht; [|exact HI].
    destruct (capturing t) eqn:Hcap; [|exact HI].
    apply capturing_spec in Hcap as (_ & Hq & Hd).
    destruct (escaped (run_until_emit (language t) env)) as [e|] eqn:Hesc.
    + apply Inv_abort, (Inv_thread_runs w tid t);
        [exact Ht | exact Hd | exact Hd | cbn; rewrite Hq; cbn; lia | | exact HI].
      cbn. rewrite Hq. intros s Hs. apply elem_of_nil in Hs. destruct Hs.
    + apply (Inv_thread_runs w tid t);
        [exact Ht | exact Hd | exact Hd | | | exact HI]; cbn; rewrite Hq; cbn.
      * apply run_emits_at_most_once.
      * intros s Hs. apply run_emitted, Hs.
  - destruct (threads w !! tid) as [t|] eqn:Ht; [|exact HI].
    destruct (queue t) as [|s rest] eqn:Hq; [exact HI|].
    apply Inv_dispatch; assumption.
  - apply Inv_close, HI.
  - destruct (threads w !! tid) as [t|] eqn:Ht; [|exact HI].
    destruct (leaving t); [|exact HI].
    destruct (microphone_exit env) as [u|e].
    + apply Inv_thread_finished, (Inv_thread_leaves w tid t); auto.
    + apply Inv_abort, (Inv_thread_leaves w tid t); auto.
Qed.

Lemma Inv_exec (evs : list Event) (w : World) : Inv w -> Inv (exec evs w).
Proof.
  revert w. induction evs as [|ev evs IH]; intros w HI; cbn; [exact HI|].
  apply IH, Inv_step, HI.
Qed.

(** Every world the application can be in satisfies the invariant. *)
Lemma Inv_reachable (files : gset string) (evs : list Event) :
  Inv (exec evs (init files)).
Proof.
  apply Inv_exec, Inv_init.
Qed.

(** * Properties of whole runs *)

Lemma settled_not_awaiting (t : Thread) : settled t -> awaiting t = false.
Proof.
  intros (_ & Hd). unfold awaiting. apply bool_decide_eq_false, Hd.
Qed.

Lemma filter_none {A : Type} (f : A -> bool) (l : list A) :
  (forall x, x ∈ l -> f x = false) -> List.filter f l = [].
Proof.
  induction l as [|x l IH]; intros H; cbn; [reflexivity|].
  rewrite (H x) by set_solver. apply IH. intros y Hy. apply H. set_solver.
Qed.

(** Only the newest element of a list can satisfy [f]: at most one does. *)
Lemma filter_newest {A : Type} (f : A -> bool) (l : list A) :
  (forall i x, l !! i = Some x -> S i <> length l -> f x = false) ->
  length (List.filter f l) <= 1.
Proof.
  destruct l as [|x l _] using rev_ind; intros H; [cbn; lia|].
  rewrite List.filter_app, length_app, filter_none.
  - cbn. destruct (f x); cbn; lia.
  - intros y Hy. apply list_elem_of_lookup in Hy as [i Hi].
    apply (H i); [apply lookup_app_l_Some, Hi|].
    apply lookup_lt_Some in Hi. rewrite length_app. cbn. lia.
Qed.

Lemma button_tracks_awaiting (w : World) :
  Inv w ->
  speak_enabled (app w) = negb (existsb awaiting (threads w)) /\
  speak_text (app w) = if speak_enabled (app w) then "Speak" else "Listening...".
Proof.
  intros [_ _ Hbtn _]. unfold button_ok in Hbtn.
  destruct (speak_enabled (app w)).
  - destruct Hbtn as [Hlabel Hset]. split; [|exact Hlabel].
    destruct (existsb awaiting (threads w)) eqn:Hex; [|reflexivity].
    apply existsb_exists in Hex as (t & Hin & Haw).
    apply list_elem_of_In, list_elem_of_lookup in Hin as [tid Ht].
    rewrite (settled_not_awaiting t (Hset tid t Ht)) in Haw. discriminate Haw.
  - destruct Hbtn as (Hlabel & Hne & Hall). split; [|exact Hlabel].
    destruct (threads w) as [|t0 ts _] eqn:Hthr using rev_ind; [congruence|].
    specialize (Hall (length ts) t0).
    rewrite lookup_app_r, Nat.sub_diag in Hall by lia.
    specialize (Hall eq_refl). rewrite length_app in Hall. cbn in Hall.
    destruct (decide _) as [_|Hn]; [|lia].
    rewrite existsb_app. cbn. unfold awaiting at 2. rewrite Hall. cbn.
    rewrite orb_true_r. reflexivity.
Qed.

(** C2: in every world the application can reach, the button is disabled
    exactly while a triggered capture has had no outcome delivered, and
    its label is Speak when enabled, Listening... when disabled; pressing
    the enabled button disables it and starts a capture that awaits its
    outcome; dispatching any outcome, text or error, leaves the button
    enabled with the label Speak. *)
Theorem C2_trigger_disabled_while_awaiting (files : gset string) (evs : list Event) :
  let w := exec evs (init files) in
  speak_enabled (app w) = negb (existsb awaiting (threads w)) /\
  speak_text (app w) = (if speak_enabled (app w) then "Speak" else "Listening...") /\
  (closed w = false -> speak_enabled (app w) = true ->
   speak_enabled (app (step Click w)) = false /\
   exists t, threads (step Click w) = (threads w ++ [t])%list /\ awaiting t = true) /\
  (forall tid sv t s rest,
     closed w = false -> threads w !! tid = Some t -> queue t = s :: rest ->
     let w' := step (Dispatch tid sv) w in
     speak_enabled (app w') = true /\ speak_text (app w') = "Speak" /\
     existsb awaiting (threads w') = false).
Proof.
  intros w. pose proof (Inv_reachable files evs) as HI. fold w in HI.
  destruct (button_tracks_awaiting w HI) as [Hen Hlabel].
  split; [exact Hen|]. split; [exact Hlabel|]. split.
  - intros Hopen Henabled. unfold step. rewrite Hopen, Henabled. cbn.
    split; [reflexivity|]. eexists. split; reflexivity.
  - intros tid sv t s rest Hopen Ht Hq w'.
    assert (HI' : Inv w') by apply Inv_step, HI.
    destruct (button_tracks_awaiting w' HI') as [Hen' _].
    assert (Hon : speak_enabled (app w') = true /\ speak_text (app w') = "Speak").
    { subst w'. unfold step. rewrite Hopen, Ht, Hq.
      match goal with |- context [slot sv s ?w0] =>
        destruct (slot_frame sv s w0) as (_ & _ & He & Hl) end.
      auto. }
    destruct Hon as [Hon Hl]. split; [exact Hon|]. split; [exact Hl|].
    rewrite Hon in Hen'. symmetry in Hen'. apply negb_true_iff in Hen'. exact Hen'.
Qed.

(** C2 on the first click and on the dispatch that ends the first capture. *)
Lemma C2_trigger_witness :
  speak_enabled (app (step Click (exec [] (init ∅)))) = false /\
  speak_enabled
    (app (step (Dispatch 0 (online ["k3x9q2ab"]))
               (exec [Click; ThreadRuns 0 heard] (init ∅)))) = true.
Proof.
  split.
  - apply (C2_trigger_disabled_while_awaiting ∅ []); reflexivity.
  - eapply (C2_trigger_disabled_while_awaiting ∅ [Click; ThreadRuns 0 heard]);
      [reflexivity | vm_compute; reflexivity | vm_compute; reflexivity].
Defined.

(** C5, as stated: a translation starts only when the recognition worker
    has completed, and at most one recognition thread is under way.  It
    does not hold: the worker emits inside its [with] block, so its signal
    is dispatched, the translation runs and the button is enabled again
    while the worker has not returned from [run]; a click then starts a
    second thread beside it. *)
Lemma C5_worker_still_running :
  ~ (forall (files : gset string) (evs : list Event),
       returned_first (trace (exec evs (init files)))) /\
  ~ (forall (files : gset string) (evs : list Event),
       length (List.filter in_flight (threads (exec evs (init files)))) <= 1).
Proof.
  split; intros H; specialize (H ∅ early_retry).
  - assert (Htr : trace (exec early_retry (init ∅))
                  = [ RecognitionStarted 1 "en";
                      SynthesisReturned "/tmp/tmpk3x9q2ab.mp3";
                      SynthesisStarted "en->es: (en) hello world" "es";
                      TranslationReturned "en->es: (en) hello world";
                      TranslationStarted "en" "es" "(en) hello world";
                      Dispatched 0 (finished "(en) hello world");
                      RecognitionEnded 0 (run_until_emit "en" heard);
                      RecognitionStarted 0 "en" ])
      by (vm_compute; reflexivity).
    rewrite Htr in H. cbn [returned_first] in H.
    destruct H as [(tid & before & Heq & Hin) _].
    injection Heq as <- <-.
    repeat (apply elem_of_cons in Hin as [Hin|Hin]; [discriminate Hin|]).
    apply elem_of_nil in Hin. destruct Hin.
  - vm_compute in H. lia.
Qed.

(** C5, amended: in every run, a translation starts only on the dispatch
    of the finished signal that a worker emitted, without an exception,
    with that text; a synthesis starts only on the return of the
    translation of the text it speaks; and at most one thread has had no
    outcome delivered. *)
Theorem C5_pipeline_order (files : gset string) (evs : list Event) :
  let w := exec evs (init files) in
  ordered (trace w) /\ length (List.filter awaiting (threads w)) <= 1.
Proof.
  intros w. pose proof (Inv_reachable files evs) as HI. fold w in HI.
  split; [apply HI|].
  destruct HI as [_ _ Hbtn _]. unfold button_ok in Hbtn.
  apply filter_newest. intros tid t Ht Hlast.
  apply settled_not_awaiting.
  destruct (speak_enabled (app w)).
  - destruct Hbtn as [_ Hset]. eapply Hset, Ht.
  - destruct Hbtn as (_ & _ & Hall). specialize (Hall tid t Ht).
    destruct (decide _); [contradiction|exact Hall].
Qed.

(** C4 in the initial world with the translation service down. *)
Lemma C4_translation_failure_witness :
  let w' := on_speech_recognized translation_down "hello" (init ∅) in
  input_text (app w') = "hello" /\ output_text (app w') = "" /\
  notices w' = [("Translation Error",
                 "An error occurred during translation: translation connection failed")].
Proof.
  pose proof (C4_translation_failure translation_down "hello" (init ∅)
                (Exn OtherError "translation connection failed") eq_refl) as H.
  cbv zeta in *. destruct H as (H1 & H2 & H3 & _). auto.
Defined.

(** C10 after one full cycle, with a synthesis that fails while saving: the
    tracked file is still the one of the first cycle. *)
Lemma C10_synthesis_failure_witness :
  let w := exec (cycle 0 ["k3x9q2ab"]) (init ∅) in
  let w' := translate_text (synthesis_down ["p0w8e7cd"]) "good morning" w in
  output_text (app w') = "en->es: good morning" /\
  temp_audio_file (app w') = Some "/tmp/tmpk3x9q2ab.mp3".
Proof.
  pose proof (C10_synthesis_failure (synthesis_down ["p0w8e7cd"]) "good morning"
                "en->es: good morning" (exec (cycle 0 ["k3x9q2ab"]) (init ∅))
                (Exn OtherError "synthesis connection failed")) as H.
  cbv zeta in *.
  destruct H as (H1 & _ & H3); [vm_compute; reflexivity..|].
  split; [exact H1|].
  destruct H3 as (H3 & _); [vm_compute; reflexivity|].
  rewrite H3. vm_compute. reflexivity.
Defined.

(** C6: in every run, a dispatch whose translation and synthesis succeed
    creates exactly one file; its path ends in .mp3, did not exist before,
    differs from the tracked file and from every file an earlier synthesis
    returned, becomes the tracked file and the source of the one media
    player, and playback is started. *)
Theorem C6_fresh_audio_file (files : gset string) (evs : list Event)
        (tid : nat) (sv : Services) (t : Thread) (text translated : string)
        (rest : list signal) :
  let w := exec evs (init files) in
  let target := currentData (target_lang (app w)) in
  closed w = false ->
  threads w !! tid = Some t ->
  queue t = finished text :: rest ->
  translation_step sv (currentData (source_lang (app w))) target text
    = Return translated ->
  (synthesize sv translated target w).1 = Return tt ->
  let w' := step (Dispatch tid sv) w in
  exists p,
    fs w' = {[p]} ∪ fs w /\ (p ∉ fs w) /\ endswith p ".mp3" = true /\
    temp_audio_file (app w') = Some p /\
    temp_audio_file (app w) <> Some p /\
    (forall q, SynthesisReturned q ∈ trace w -> q <> p) /\
    player_source (app w') = Some p /\ player_playing (app w') = true.
Proof.
  intros w target Hopen Ht Hq Htr Hsyn w'.
  pose proof (Inv_reachable files evs) as HI. fold w in HI.
  destruct HI as [_ _ _ Hfiles]. specialize (Hfiles Hopen).
  subst w'. unfold step. rewrite Hopen, Ht, Hq. revert Hsyn.
  unfold slot, on_speech_recognized, translate_text, try_except, bind, call, modify.
  cbn. fold target. rewrite Htr. cbn.
  unfold generate_and_play_audio, synthesize, write_audio, try_except, bind,
    ret, call, modify, NamedTemporaryFile. cbn.
  destruct (gTTS sv translated target); cbn; [|discriminate].
  destruct (first_free _ _ _ _) as [p|] eqn:Hfree; cbn; [|discriminate].
  destruct (save sv p); cbn; [|discriminate].
  destruct (media_setSource sv p); cbn; [|discriminate].
  destruct (media_play sv); cbn; [|discriminate]. intros _.
  apply first_free_spec in Hfree as [Hfresh Hsuffix].
  exists p.
  split; [reflexivity|]. split; [exact Hfresh|]. split; [exact Hsuffix|].
  split; [reflexivity|].
  split; [intros Hsame; apply Hfresh, Hfiles; auto|].
  split; [intros q Hq' ->; apply Hfresh, Hfiles; auto|].
  split; reflexivity.
Qed.

(** C6 on the second cycle of a run, where the library first draws the name
    used in the first cycle. *)
Lemma C6_fresh_audio_file_witness :
  let w := exec (cycle 0 ["k3x9q2ab"] ++ [Click; ThreadRuns 1 heard])%list (init ∅) in
  let w' := step (Dispatch 1 (online ["k3x9q2ab"; "p0w8e7cd"])) w in
  temp_audio_file (app w) = Some "/tmp/tmpk3x9q2ab.mp3" /\
  exists p, fs w' = {[p]} ∪ fs w /\ temp_audio_file (app w) <> Some p /\
            player_source (app w') = Some p.
Proof.
  cbv zeta. split; [vm_compute; reflexivity|].
  edestruct (C6_fresh_audio_file ∅
               (cycle 0 ["k3x9q2ab"] ++ [Click; ThreadRuns 1 heard])%list
               1 (online ["k3x9q2ab"; "p0w8e7cd"]))
    as (p & H1 & _ & _ & _ & H5 & _ & H7 & _);
    [vm_compute; reflexivity..|].
  exists p. auto.
Defined.

(** C7, as stated: at exit every audio file of the session is deleted.
    It does not hold: after two successful cycles, closing the window with
    a working [os.unlink] leaves the file of the first cycle behind. *)
Lemma C7_earlier_file_survives_close :
  ~ (forall (files : gset string) (evs : list Event) (sv : Services),
       (forall path, unlink sv path = Return tt) ->
       let w := exec (evs ++ [Close sv])%list (init files) in
       forall p, SynthesisReturned p ∈ trace w -> p ∉ fs w).
Proof.
  intros H.
  apply (H ∅ two_cycles (online []) (fun _ => eq_refl) "/tmp/tmpk3x9q2ab.mp3").
  - vm_compute. set_solver.
  - vm_compute. reflexivity.
Qed.


(** * What a worker thread can change *)

(** A step of a worker thread touches neither the application nor the
    files nor the notices; it records actions of its own and keeps the
    language of every thread; it can end the application, never revive
    it. *)
Lemma worker_step_frame (ev : Event) (w : World) :
  is_worker ev = true ->
  app (step ev w) = app w /\
  fs (step ev w) = fs w /\
  notices (step ev w) = notices w /\
  (closed (step ev w) = false -> closed w = false) /\
  (exists new, trace (step ev w) = (new ++ trace w)%list /\ Forall of_worker new) /\
  (forall tid t, threads w !! tid = Some t ->
     exists t', threads (step ev w) !! tid = Some t' /\ language t' = language t) /\
  (forall tid t', threads (step ev w) !! tid = Some t' ->
     exists t, threads w !! tid = Some t /\ language t' = language t).
Proof.
  intros Hev.
  assert (Hsame : forall P : Prop, P ->
                  app w = app w /\ fs w = fs w /\ notices w = notices w /\ P /\
                  (exists new, trace w = (new ++ trace w)%list /\ Forall of_worker new) /\
                  (forall tid t, threads w !! tid = Some t ->
                     exists t', threads w !! tid = Some t' /\ language t' = language t) /\
                  (forall tid t', threads w !! tid = Some t' ->
                     exists t, threads w !! tid = Some t /\ language t' = language t)).
  { intros P HP. do 3 (split; [reflexivity|]). split; [exact HP|].
    split; [exists []; split; [reflexivity|constructor]|].
    split; intros tid t H; eauto. }
  assert (Hins : forall tid t t0,
             threads w !! tid = Some t -> language t0 = language t ->
             (forall tid' t1, threads w !! tid' = Some t1 ->
                exists t', <[tid := t0]> (threads w) !! tid' = Some t' /\
                           language t' = language t1) /\
             (forall tid' t', <[tid := t0]> (threads w) !! tid' = Some t' ->
                exists t1, threads w !! tid' = Some t1 /\ language t' = language t1)).
  { intros tid t t0 Ht Hl. split; intros tid' t1 H;
      destruct (decide (tid = tid')) as [<-|Hne].
    - rewrite list_lookup_insert_eq by (eapply lookup_lt_Some, Ht).
      exists t0. split; [reflexivity|congruence].
    - rewrite list_lookup_insert_ne by exact Hne. eauto.
    - rewrite list_lookup_insert_eq in H by (eapply lookup_lt_Some, Ht).
      injection H as <-. eauto.
    - rewrite list_lookup_insert_ne in H by exact Hne. eauto. }
  unfold step. destruct (closed w) eqn:Hclosed; [apply Hsame; congruence|].
  destruct ev as [|i|i|tid env|tid sv|sv|tid env]; try discriminate Hev.
  - destruct (threads w !! tid) as [t|] eqn:Ht; [|apply Hsame; congruence].
    destruct (capturing t); [|apply Hsame; congruence].
    set (o := run_until_emit (language t) env).
    set (t0 := match escaped o with
               | Some e => thread_dies e t
               | None => thread_emits o t
               end).
    assert (Hl : language t0 = language t) by (subst t0; destruct (escaped o); reflexivity).
    destruct (Hins tid t t0 Ht Hl) as [Hfw Hbw].
    match goal with |- context [foldr print ?w0 ?l] =>
      destruct (foldr_print_frame l w0) as (Fa & Ft & Ff & Fn & Ftr & Fc) end.
    destruct (escaped o); cbn; rewrite ?Fa, ?Ft, ?Ff, ?Fn, ?Ftr, ?Fc; cbn;
      (split; [reflexivity|]); (split; [reflexivity|]); (split; [reflexivity|]);
      (split; [auto; discriminate|]);
      (split; [exists [RecognitionEnded tid o];
               split; [reflexivity|repeat constructor]|]);
      (split; [exact Hfw|exact Hbw]).
  - destruct (threads w !! tid) as [t|] eqn:Ht; [|apply Hsame; congruence].
    destruct (leaving t); [|apply Hsame; congruence].
    destruct (microphone_exit env) as [u|e]; cbn.
    + destruct (Hins tid t (thread_returns t) Ht eq_refl) as [Hfw Hbw].
      do 3 (split; [reflexivity|]). split; [auto|].
      split; [exists [ThreadFinished tid]; split; [reflexivity|repeat constructor]|].
      split; [exact Hfw|exact Hbw].
    + destruct (Hins tid t (thread_dies e t) Ht eq_refl) as [Hfw Hbw].
      do 3 (split; [reflexivity|]). split; [discriminate|].
      split; [exists []; split; [reflexivity|constructor]|].
      split; [exact Hfw|exact Hbw].
Qed.

(** * Further properties of the worker and of the slots *)

(** X1: the notice of the worker tells the failure class apart: two
    exceptions with the same notice have the same class, and for a request
    error or an unexpected error also the same text. *)
Theorem X1_handler_identifies_failure (e1 e2 : exn) :
  handler e1 = handler e2 ->
  exn_cls e1 = exn_cls e2 /\
  (exn_cls e1 = RequestError \/ exn_cls e1 = OtherError -> exn_str e1 = exn_str e2).
Proof.
  unfold handler, msg_timeout, msg_unintelligible, msg_request, msg_unexpected.
  destruct (exn_cls e1), (exn_cls e2); cbn; intros H;
    try discriminate H; (split; [reflexivity|]);
    intros [Hc|Hc]; try discriminate Hc; injection H; auto.
Qed.

Lemma X1_handler_witness :
  handler (Exn RequestError "quota exceeded") = error (msg_request (Exn RequestError "quota exceeded")) /\
  exn_cls (Exn RequestError "quota exceeded") = RequestError.
Proof.
  split; [reflexivity|].
  apply (X1_handler_identifies_failure (Exn RequestError "quota exceeded")
           (Exn RequestError "quota exceeded") eq_refl).
Defined.

(** X5: a second click while the first capture is under way starts
    nothing: clicking twice is clicking once. *)
Theorem X5_click_twice (w : World) :
  step Click (step Click w) = step Click w.
Proof.
  unfold step. destruct (closed w) eqn:Hclosed; [rewrite Hclosed; reflexivity|].
  destruct (speak_enabled (app w)) eqn:Hen; cbn.
  - rewrite Hclosed. reflexivity.
  - rewrite Hclosed, Hen. reflexivity.
Qed.

(** X6: one event shows at most one notice, only a dispatch shows one, and
    its title is one of the three titles of the application. *)
Theorem X6_one_notice_per_dispatch (ev : Event) (w : World) :
  notices (step ev w) = notices w \/
  exists title text,
    notices (step ev w) = (title, text) :: notices w /\
    title ∈ titles /\ is_dispatch ev = true.
Proof.
  destruct (is_worker ev) eqn:Hwk.
  { left. apply (worker_step_frame ev w Hwk). }
  unfold step. destruct (closed w); [auto|].
  destruct ev as [|i|i|tid env|tid sv|sv|tid env]; cbn; try discriminate Hwk.
  - destruct (speak_enabled (app w)); auto.
  - case_bool_decide; auto.
  - case_bool_decide; auto.
  - destruct (threads w !! tid) as [t|]; [|auto].
    destruct (queue t) as [|s rest]; [auto|].
    unfold titles.
    destruct s as [text|message]; slot_unfold; oracle_cases;
      first [ left; reflexivity
            | right; eexists _, _; split; [reflexivity|];
              split; [set_solver|reflexivity] ].
  - left. slot_unfold. cbn.
    destruct (temp_audio_file (app w)) as [[|c path]|]; oracle_cases; reflexivity.
Qed.

(** X8: no event but the close deletes a file; an event creates at most
    one, only a dispatch does, and the new path did not exist and ends in
    .mp3. *)
Theorem X8_files_grow_by_one (ev : Event) (w : World) :
  is_close ev = false ->
  fs (step ev w) = fs w \/
  exists p,
    fs (step ev w) = {[p]} ∪ fs w /\ (p ∉ fs w) /\
    endswith p ".mp3" = true /\ is_dispatch ev = true.
Proof.
  intros Hev. destruct (is_worker ev) eqn:Hwk.
  { left. apply (worker_step_frame ev w Hwk). }
  unfold step. destruct (closed w); [auto|].
  destruct ev as [|i|i|tid env|tid sv|sv|tid env]; cbn; try discriminate Hev; try discriminate Hwk.
  - destruct (speak_enabled (app w)); auto.
  - case_bool_decide; auto.
  - case_bool_decide; auto.
  - destruct (threads w !! tid) as [t|]; [|auto].
    destruct (queue t) as [|s rest]; [auto|].
    destruct s as [text|message]; slot_unfold; oracle_cases;
      first [ left; reflexivity
            | right; eexists; split; [reflexivity|];
              match goal with
              | H : first_free _ _ _ _ = Some _ |- _ =>
                  apply first_free_spec in H as [Hfresh Hsuffix]
              end; auto ].
Qed.

Lemma X8_files_witness :
  let w := exec [Click; ThreadRuns 0 heard] (init ∅) in
  fs (step (Dispatch 0 (online ["k3x9q2ab"])) w) = {[ "/tmp/tmpk3x9q2ab.mp3" ]} ∪ fs w.
Proof.
  cbv zeta.
  destruct (X8_files_grow_by_one (Dispatch 0 (online ["k3x9q2ab"]))
              (exec [Click; ThreadRuns 0 heard] (init ∅)) eq_refl)
    as [H|(p & H & _)]; vm_compute; reflexivity.
Defined.

(** * Further invariants of the event loop *)

Lemma panes_step (ev : Event) (w : World) :
  input_text (app w) = default "" (last_recognized (trace w)) /\
  output_text (app w) = default "" (last_translated (trace w)) ->
  input_text (app (step ev w)) = default "" (last_recognized (trace (step ev w))) /\
  output_text (app (step ev w)) = default "" (last_translated (trace (step ev w))).
Proof.
  intros [Hin Hout]. destruct (is_worker ev) eqn:Hwk.
  { destruct (worker_step_frame ev w Hwk) as (Fa & _ & _ & _ & (new & Ftr & Hnew) & _).
    rewrite Fa, Ftr.
    assert (Hlast : last_recognized (new ++ trace w) = last_recognized (trace w) /\
                    last_translated (new ++ trace w) = last_translated (trace w)).
    { clear Ftr. induction Hnew as [|a new Ha _ IH]; [auto|].
      destruct a; try destruct Ha; exact IH. }
    destruct Hlast as [-> ->]. auto. }
  unfold step. destruct (closed w); [auto|].
  destruct ev as [|i|i|tid env|tid sv|sv|tid env]; cbn; try discriminate Hwk.
  - destruct (speak_enabled (app w)); cbn; auto.
  - case_bool_decide; cbn; auto.
  - case_bool_decide; cbn; auto.
  - destruct (threads w !! tid) as [t|]; [|auto].
    destruct (queue t) as [|s rest]; [auto|].
    destruct s as [text|message]; slot_unfold; oracle_cases; auto.
  - slot_unfold. cbn.
    destruct (temp_audio_file (app w)) as [[|c path]|]; oracle_cases; auto.
Qed.

(** X7: in every run the recognised-text pane shows the text of the
    newest finished signal dispatched, and the translated-text pane the
    newest translation that returned; both are empty before the first. *)
Theorem X7_panes_show_latest (files : gset string) (evs : list Event) :
  let w := exec evs (init files) in
  input_text (app w) = default "" (last_recognized (trace w)) /\
  output_text (app w) = default "" (last_translated (trace w)).
Proof.
  cbv zeta. unfold exec.
  assert (Hgen : forall w,
             input_text (app w) = default "" (last_recognized (trace w)) /\
             output_text (app w) = default "" (last_translated (trace w)) ->
             let w' := fold_left (fun w ev => step ev w) evs w in
             input_text (app w') = default "" (last_recognized (trace w')) /\
             output_text (app w') = default "" (last_translated (trace w'))).
  { induction evs as [|ev evs IH]; intros w H; cbn; [exact H|].
    apply IH, panes_step, H. }
  apply Hgen. cbn. auto.
Qed.

Lemma insert_newest {A : Type} (l : list A) (x y : A) :
  <[length l := y]> (l ++ [x])%list = (l ++ [y])%list.
Proof.
  induction l as [|a l IH]; [reflexivity|].
  change (a :: <[length l := y]> (l ++ [x])%list = a :: (l ++ [y])%list).
  rewrite IH. reflexivity.
Qed.

Lemma lookup_newest {A : Type} (l : list A) (x : A) :
  (l ++ [x])%list !! length l = Some x.
Proof.
  induction l as [|a l IH]; cbn; [reflexivity|exact IH].
Qed.

(** The world after a click on the enabled button and the run, up to its
    [emit], of the thread that the click started. *)
Lemma click_then_run (w : World) (env : Worker.Env) :
  closed w = false -> speak_enabled (app w) = true ->
  let n := length (threads w) in
  let lang := currentData (source_lang (app w)) in
  let o := run_until_emit lang env in
  let t0 := mkThread lang true [] [] None in
  let w2 := step (ThreadRuns n env) (step Click w) in
  app w2 = setText "Listening..." (setEnabled false (set_speech_thread (Some n) (app w))) /\
  threads w2 = (threads w ++ [match escaped o with
                              | Some e => thread_dies e t0
                              | None => thread_emits o t0
                              end])%list /\
  fs w2 = fs w /\ notices w2 = notices w /\
  closed w2 = (match escaped o with Some _ => true | None => false end) /\
  trace w2 = RecognitionEnded n o :: RecognitionStarted n lang :: trace w.
Proof.
  intros Hopen Hen. cbv zeta.
  assert (Hclick : step Click w = start_speech_recognition w).
  { unfold step. rewrite Hopen, Hen. reflexivity. }
  rewrite Hclick. unfold step. cbn. rewrite Hopen, lookup_newest. cbn.
  match goal with |- context [foldr print ?w0 ?l] =>
    destruct (foldr_print_frame l w0) as (Fa & Ft & Ff & Fn & Ftr & Fc) end.
  destruct (escaped (run_until_emit (currentData (source_lang (app w))) env));
    cbn; rewrite Fa, Ft, Ff, Fn, Ftr, ?Fc; cbn;
    rewrite insert_newest; auto 10.
Qed.

(** X4: when the microphone cannot be opened, the thread dies without a
    signal and the application ends there: no notice is shown, no file is
    deleted, the button was not enabled again, and no later event changes
    anything. *)
Theorem X4_microphone_failure_ends_application
        (w : World) (env : Worker.Env) (e : exn) (evs : list Event) :
  closed w = false -> speak_enabled (app w) = true ->
  microphone env = Raise e ->
  let w2 := step (ThreadRuns (length (threads w)) env) (step Click w) in
  closed w2 = true /\
  threads w2
  = (threads w ++ [mkThread (currentData (source_lang (app w))) false [] []
                            (Some e)])%list /\
  notices w2 = notices w /\ fs w2 = fs w /\
  speak_enabled (app w2) = false /\
  exec evs w2 = w2.
Proof.
  intros Hopen Hen Hmic w2.
  destruct (click_then_run w env Hopen Hen) as (Ha & Ht & Hf & Hn & Hc & _).
  cbv zeta in *. fold w2 in Ha, Ht, Hf, Hn, Hc.
  unfold run_until_emit in Ht, Hc. rewrite Hmic in Ht, Hc. cbn in Ht, Hc.
  split; [exact Hc|]. split; [exact Ht|]. split; [exact Hn|]. split; [exact Hf|].
  split; [rewrite Ha; reflexivity|].
  induction evs as [|ev evs IH]; [reflexivity|].
  change (exec (ev :: evs) w2) with (exec evs (step ev w2)).
  unfold step at 1. rewrite Hc. exact IH.
Qed.

(** X4 in the initial world, on a machine without an input device,
    followed by a dispatch, a click and a selection. *)
Lemma X4_microphone_failure_witness :
  exec [Dispatch 0 (online []); Click; SelectSource 3]
       (step (ThreadRuns 0 no_input_device) (step Click (init ∅)))
  = step (ThreadRuns 0 no_input_device) (step Click (init ∅)).
Proof.
  apply (X4_microphone_failure_ends_application (init ∅) no_input_device
           (Exn OtherError "No Default Input Device Available")
           [Dispatch 0 (online []); Click; SelectSource 3]); reflexivity.
Defined.

Lemma handler_is_error (e : exn) : exists message, handler e = error message.
Proof.
  unfold handler. destruct (exn_cls e); eauto.
Qed.

(** The world in which the signal of the thread of [click_then_run] is
    dispatched. *)
Lemma dispatch_after_run (w : World) (env : Worker.Env) (sv : Services) (s : signal) :
  closed w = false -> speak_enabled (app w) = true ->
  emitted (run_until_emit (currentData (source_lang (app w))) env) = [s] ->
  exists w3,
    exec (one_cycle w env sv) w = slot sv s w3 /\
    app w3 = setText "Listening..."
               (setEnabled false (set_speech_thread (Some (length (threads w))) (app w))) /\
    fs w3 = fs w /\ notices w3 = notices w /\ closed w3 = false.
Proof.
  intros Hopen Hen Hem.
  destruct (click_then_run w env Hopen Hen) as (Ha & Ht & Hf & Hn & Hc & _).
  cbv zeta in *.
  assert (Hesc : escaped (run_until_emit (currentData (source_lang (app w))) env) = None).
  { destruct (run_emitted (currentData (source_lang (app w))) env s) as [_ He];
      [|exact He].
    rewrite Hem. apply elem_of_cons. auto. }
  rewrite Hesc in Ht, Hc.
  change (exec (one_cycle w env sv) w)
    with (step (Dispatch (length (threads w)) sv)
               (step (ThreadRuns (length (threads w)) env) (step Click w))).
  set (w2 := step (ThreadRuns (length (threads w)) env) (step Click w)) in *.
  unfold step at 1. rewrite Hc, Ht, lookup_newest.
  unfold thread_emits. cbn [queue]. rewrite app_nil_l, Hem.
  eexists. split; [reflexivity|]. cbn. rewrite Ha, Hf, Hn, Hc. auto.
Qed.

(** X2: a click, a capture or recognition that raises, and the dispatch
    of the error signal leave the text panes, the tracked file, the player
    and the files as they were before the click, show the one notice of
    the failure, and leave the button enabled with the label Speak. *)
Theorem X2_failed_recognition_cycle (w : World) (env : Worker.Env)
        (sv : Services) (e : exn) :
  closed w = false -> speak_enabled (app w) = true ->
  microphone env = Return tt ->
  try_body env (currentData (source_lang (app w))) = Raise e ->
  let w' := exec (one_cycle w env sv) w in
  (exists message, handler e = error message /\
     notices w' = ("Speech Recognition Error", message) :: notices w) /\
  input_text (app w') = input_text (app w) /\
  output_text (app w') = output_text (app w) /\
  temp_audio_file (app w') = temp_audio_file (app w) /\
  player_source (app w') = player_source (app w) /\
  player_playing (app w') = player_playing (app w) /\
  fs w' = fs w /\
  speak_enabled (app w') = true /\ speak_text (app w') = "Speak".
Proof.
  intros Hopen Hen Hmic Htry w'.
  assert (Hem : emitted (run_until_emit (currentData (source_lang (app w))) env)
                = [handler e]).
  { unfold run_until_emit. rewrite Hmic, Htry. reflexivity. }
  destruct (dispatch_after_run w env sv _ Hopen Hen Hem)
    as (w3 & Hw' & Ha & Hf & Hn & _).
  subst w'. rewrite Hw'.
  destruct (handler_is_error e) as [message Hm]. rewrite Hm. cbn.
  rewrite Ha, Hf, Hn. cbn. split; [eauto|auto 10].
Qed.

Lemma X2_failed_recognition_witness :
  notices (exec (one_cycle (init ∅) mumbled_capture (online [])) (init ∅))
  = [("Speech Recognition Error", msg_unintelligible)].
Proof.
  destruct (X2_failed_recognition_cycle (init ∅) mumbled_capture (online [])
              (Exn UnknownValueError "") eq_refl eq_refl eq_refl eq_refl)
    as ((message & Hm & Hn) & _).
  cbv zeta in Hn. rewrite Hn. vm_compute in Hm. injection Hm as <-. reflexivity.
Defined.

(** X3: a click, a capture that is recognised, and the dispatch of the
    finished signal with a translation and a synthesis that succeed fill
    the recognised-text pane with the text and the translated-text pane
    with the translation, show no notice, track and play one new file, and
    leave the button enabled with the label Speak. *)
Theorem X3_successful_cycle (w : World) (env : Worker.Env) (sv : Services)
        (text translated : string) :
  let source := currentData (source_lang (app w)) in
  let target := currentData (target_lang (app w)) in
  closed w = false -> speak_enabled (app w) = true ->
  microphone env = Return tt ->
  try_body env source = Return text ->
  translation_step sv source target text = Return translated ->
  (synthesize sv translated target w).1 = Return tt ->
  let w' := exec (one_cycle w env sv) w in
  input_text (app w') = text /\
  output_text (app w') = translated /\
  notices w' = notices w /\
  speak_enabled (app w') = true /\ speak_text (app w') = "Speak" /\
  exists p,
    fs w' = {[p]} ∪ fs w /\
    temp_audio_file (app w') = Some p /\
    player_source (app w') = Some p /\ player_playing (app w') = true.
Proof.
  intros source target Hopen Hen Hmic Htry Htr Hsyn w'.
  assert (Hem : emitted (run_until_emit source env) = [finished text]).
  { unfold run_until_emit. rewrite Hmic, Htry. reflexivity. }
  destruct (dispatch_after_run w env sv _ Hopen Hen Hem)
    as (w3 & Hw' & Ha & Hf & Hn & _).
  subst w'. rewrite Hw'. revert Hsyn.
  unfold slot, on_speech_recognized, translate_text, try_except, bind, call, modify.
  cbn. rewrite Ha. cbn. fold source target. rewrite Htr. cbn.
  unfold generate_and_play_audio, synthesize, write_audio, try_except, bind,
    ret, call, modify, NamedTemporaryFile. cbn. rewrite Hf.
  destruct (gTTS sv translated target); cbn; [|discriminate].
  destruct (first_free _ _ _ _) as [p|]; cbn; [|discriminate].
  destruct (save sv p); cbn; [|discriminate].
  destruct (media_setSource sv p); cbn; [|discriminate].
  destruct (media_play sv); cbn; [|discriminate]. intros _.
  rewrite Hf, Hn. repeat (split; [reflexivity|]). exists p. auto.
Qed.

Lemma X3_successful_cycle_witness :
  let w' := exec (one_cycle (init ∅) heard (online ["k3x9q2ab"])) (init ∅) in
  input_text (app w') = "(en) hello world" /\
  output_text (app w') = "en->es: (en) hello world" /\
  notices w' = [].
Proof.
  edestruct (X3_successful_cycle (init ∅) heard (online ["k3x9q2ab"])
               "(en) hello world" "en->es: (en) hello world")
    as (H1 & H2 & H3 & _); [vm_compute; reflexivity..|].
  cbv zeta. auto.
Defined.

(** A file that exists and is not the tracked one stays so after any
    event: later files get paths that do not exist yet, and the close
    deletes the tracked file only. *)
Lemma untracked_step (p : string) (ev : Event) (w : World) :
  p ∈ fs w -> temp_audio_file (app w) <> Some p ->
  p ∈ fs (step ev w) /\ temp_audio_file (app (step ev w)) <> Some p.
Proof.
  intros Hp Hne. destruct (is_worker ev) eqn:Hwk.
  { destruct (worker_step_frame ev w Hwk) as (Fa & Ff & _). rewrite Fa, Ff. auto. }
  unfold step. destruct (closed w); [auto|].
  destruct ev as [|i|i|tid env|tid sv|sv|tid env]; cbn; try discriminate Hwk.
  - destruct (speak_enabled (app w)); cbn; auto.
  - case_bool_decide; cbn; auto.
  - case_bool_decide; cbn; auto.
  - destruct (threads w !! tid) as [t|]; [|auto].
    destruct (queue t) as [|s rest]; [auto|].
    destruct s as [text|message]; slot_unfold; oracle_cases;
      try match goal with
        | H : first_free _ _ _ _ = Some _ |- _ =>
            apply first_free_spec in H as [Hfresh _]
        end;
      (split; [first [exact Hp | apply elem_of_union_r, Hp]
              |first [exact Hne | intros [= ->]; contradiction]]).
  - slot_unfold. cbn.
    destruct (temp_audio_file (app w)) as [[|c path]|] eqn:Htracked;
      oracle_cases; rewrite ?Htracked; try (split; [exact Hp|exact Hne]).
    split; [|exact Hne]. apply elem_of_difference. split; [exact Hp|].
    intros Hin. apply elem_of_singleton in Hin. congruence.
Qed.

Lemma untracked_exec (p : string) (evs : list Event) (w : World) :
  p ∈ fs w -> temp_audio_file (app w) <> Some p ->
  p ∈ fs (exec evs w) /\ temp_audio_file (app (exec evs w)) <> Some p.
Proof.
  revert w. induction evs as [|ev evs IH]; intros w Hp Hne; [cbn; auto|].
  change (exec (ev :: evs) w) with (exec evs (step ev w)).
  destruct (untracked_step p ev w Hp Hne) as [Hp' Hne']. apply IH; assumption.
Qed.

(** X9: when the download of the audio into the new file fails, the file
    has been created but is not tracked; if the file tracked until then
    exists, the new one is never tracked later and no later event, the
    close included, deletes it. *)
Theorem X9_failed_download_leaks_file (sv : Services) (text lang : string)
        (w : World) (p : string) (e : exn) (evs : list Event) :
  gTTS sv text lang = Return tt ->
  first_free (tempdir sv) suffix_mp3 (candidates sv) (fs w) = Some p ->
  save sv p = Raise e ->
  (forall q, temp_audio_file (app w) = Some q -> q ∈ fs w) ->
  let w' := generate_and_play_audio sv text lang w in
  (p ∉ fs w) /\
  temp_audio_file (app w') = temp_audio_file (app w) /\
  p ∈ fs (exec evs w') /\
  temp_audio_file (app (exec evs w')) <> Some p.
Proof.
  intros Htts Hfree Hsave Htracked w'.
  destruct (first_free_spec _ _ _ _ _ Hfree) as [Hfresh _].
  assert (Hw' : fs w' = {[p]} ∪ fs w /\ app w' = app w).
  { subst w'. slot_unfold. cbn. rewrite Htts. cbn. rewrite Hfree. cbn.
    rewrite Hsave. cbn. auto. }
  destruct Hw' as [Hfs Happ].
  split; [exact Hfresh|]. split; [rewrite Happ; reflexivity|].
  apply untracked_exec.
  - rewrite Hfs. apply elem_of_union_l, elem_of_singleton. reflexivity.
  - rewrite Happ. intros H. apply Hfresh, Htracked, H.
Qed.

Lemma X9_failed_download_witness :
  "/tmp/tmpp0w8e7cd.mp3"
  ∈ fs (exec [Close (online [])]
             (generate_and_play_audio (synthesis_down ["p0w8e7cd"]) "hola" "es"
                (exec (cycle 0 ["k3x9q2ab"]) (init ∅)))).
Proof.
  eapply (X9_failed_download_leaks_file (synthesis_down ["p0w8e7cd"]) "hola" "es"
            (exec (cycle 0 ["k3x9q2ab"]) (init ∅)) "/tmp/tmpp0w8e7cd.mp3"
            (Exn OtherError "synthesis connection failed") [Close (online [])]);
    [reflexivity | vm_compute; reflexivity | reflexivity |].
  intros q Hq. vm_compute in Hq. injection Hq as <-.
  vm_compute. reflexivity.
Defined.

Lemma exec_invariant (P : World -> Prop) :
  (forall ev w, P w -> P (step ev w)) ->
  forall evs w, P w -> P (exec evs w).
Proof.
  intros Hstep evs. induction evs as [|ev evs IH]; intros w Hw; [exact Hw|].
  change (exec (ev :: evs) w) with (exec evs (step ev w)). apply IH, Hstep, Hw.
Qed.

Lemma media_step (ev : Event) (w : World) :
  let P := fun w : World =>
    (forall p, temp_audio_file (app w) = Some p ->
       endswith p ".mp3" = true /\ (closed w = false -> p ∈ fs w)) /\
    (forall p, player_source (app w) = Some p ->
       endswith p ".mp3" = true /\ (closed w = false -> p ∈ fs w)) /\
    (player_playing (app w) = true -> player_source (app w) <> None) in
  P w -> P (step ev w).
Proof.
  intros P HP. subst P. cbn beta in *.
  destruct (is_worker ev) eqn:Hwk.
  { destruct (worker_step_frame ev w Hwk) as (Fa & Ff & _ & Fc & _).
    rewrite Fa, Ff. destruct HP as (Htemp & Hsrc & Hplay).
    split; [|split; [|exact Hplay]]; intros p Hp;
      (split; [first [apply Htemp, Hp | apply Hsrc, Hp]|]); intros Hopen;
      first [apply Htemp; auto; fail | apply Hsrc; auto]. }
  unfold step. destruct (closed w) eqn:Hclosed; [rewrite Hclosed; exact HP|].
  destruct HP as (Htemp & Hsrc & Hplay).
  destruct ev as [|i|i|tid env|tid sv|sv|tid env]; cbn; try discriminate Hwk.
  - destruct (speak_enabled (app w)); cbn; rewrite ?Hclosed; auto.
  - case_bool_decide; cbn; rewrite ?Hclosed; auto.
  - case_bool_decide; cbn; rewrite ?Hclosed; auto.
  - destruct (threads w !! tid) as [t|]; [|rewrite Hclosed; auto].
    destruct (queue t) as [|s rest]; [rewrite Hclosed; auto|].
    destruct s as [text|message]; slot_unfold; oracle_cases;
      rewrite ?Hclosed;
      try match goal with
        | H : first_free _ _ _ _ = Some _ |- _ =>
            apply first_free_spec in H as [Hfresh Hsuffix]
        end;
      (split; [|split]);
      try (intros p [= <-]; split;
           [exact Hsuffix
           |intros _; apply elem_of_union_l, elem_of_singleton; reflexivity]);
      try (intros p Hp; split;
           [first [apply Htemp, Hp | apply Hsrc, Hp]
           |intros _;
            first [apply Htemp; [exact Hp|reflexivity]
                  |apply Hsrc; [exact Hp|reflexivity]
                  |apply elem_of_union_r; apply Htemp; [exact Hp|reflexivity]
                  |apply elem_of_union_r; apply Hsrc; [exact Hp|reflexivity]]]);
      try exact Hplay; try discriminate.
  - slot_unfold. cbn.
    destruct (temp_audio_file (app w)) as [[|c path]|] eqn:Htracked;
      oracle_cases; rewrite ?Htracked;
      (split; [|split; [|exact Hplay]]); intros p Hp;
      (split; [first [apply Htemp; congruence | apply Hsrc, Hp]|discriminate]).
Qed.

(** X11: in every run the tracked audio file and the source of the media
    player, when there is one, have a path ending in .mp3 and exist until
    the window closes; the player plays only when it has a source. *)
Theorem X11_media_files_exist (files : gset string) (evs : list Event) :
  let w := exec evs (init files) in
  (forall p, temp_audio_file (app w) = Some p ->
     endswith p ".mp3" = true /\ (closed w = false -> p ∈ fs w)) /\
  (forall p, player_source (app w) = Some p ->
     endswith p ".mp3" = true /\ (closed w = false -> p ∈ fs w)) /\
  (player_playing (app w) = true -> player_source (app w) <> None).
Proof.
  cbv zeta.
  apply (exec_invariant _ (fun ev w => media_step ev w)).
  cbn. repeat split; discriminate.
Qed.

Lemma X11_media_files_witness :
  "/tmp/tmpp0w8e7cd.mp3" ∈ fs (exec two_cycles (init ∅)).
Proof.
  destruct (X11_media_files_exist ∅ two_cycles) as (Htracked & _).
  destruct (Htracked "/tmp/tmpp0w8e7cd.mp3") as [_ Hexists];
    [vm_compute; reflexivity|].
  apply Hexists. reflexivity.
Defined.

Lemma currentData_code (i : nat) :
  i < length languages -> currentData i ∈ codes.
Proof.
  intros Hi. unfold codes. apply list_elem_of_fmap.
  unfold currentData. destruct (languages !! i) as [[name code]|] eqn:Hl.
  - exists (name, code). split; [reflexivity|].
    apply list_elem_of_lookup. eauto.
  - apply lookup_ge_None in Hl. lia.
Qed.

Lemma languages_step (ev : Event) (w : World) :
  let P := fun w : World =>
    source_lang (app w) < length languages /\
    target_lang (app w) < length languages /\
    (forall tid t, threads w !! tid = Some t -> language t ∈ codes) /\
    Forall supported (trace w) in
  P w -> P (step ev w).
Proof.
  intros P (Hs & Ht & Hthr & Htr). subst P. cbn beta.
  pose proof (currentData_code _ Hs) as Hsc.
  pose proof (currentData_code _ Ht) as Htc.
  destruct (is_worker ev) eqn:Hwk.
  { destruct (worker_step_frame ev w Hwk)
      as (Fa & _ & _ & _ & (new & Ftr & Hnew) & _ & Hbw).
    rewrite Fa, Ftr. split; [exact Hs|]. split; [exact Ht|]. split.
    - intros tid t H. destruct (Hbw tid t H) as (t0 & H0 & ->). eauto.
    - apply Forall_app. split; [|exact Htr].
      eapply Forall_impl; [exact Hnew|]. intros a Ha. destruct a; (exact I || destruct Ha). }
  unfold step. destruct (closed w); [auto|].
  destruct ev as [|i|i|tid env|tid sv|sv|tid env]; cbn; try discriminate Hwk.
  - destruct (speak_enabled (app w)); cbn; [|auto].
    split; [exact Hs|]. split; [exact Ht|]. split.
    + intros tid t H. apply lookup_app_Some in H as [H|[_ H]]; [eauto|].
      apply list_lookup_singleton_Some in H as [_ <-]. exact Hsc.
    + apply Forall_cons. split; [exact Hsc|exact Htr].
  - case_bool_decide; cbn; auto.
  - case_bool_decide; cbn; auto.
  - destruct (threads w !! tid) as [t|] eqn:Hlook; [|auto].
    destruct (queue t) as [|s rest]; [auto|].
    assert (Hthr' : forall tid' t',
               <[tid := thread_dispatched s rest t]> (threads w) !! tid' = Some t' ->
               language t' ∈ codes).
    { intros tid' t' H. apply list_lookup_insert_Some in H as [(_ & <- & _)|[_ H]].
      - cbn. eauto.
      - eauto. }
    destruct s as [text|message]; slot_unfold; oracle_cases;
      (split; [exact Hs|]); (split; [exact Ht|]); (split; [exact Hthr'|]);
      repeat (apply Forall_cons; split; [cbn; auto|]); exact Htr.
  - slot_unfold. cbn.
    destruct (temp_audio_file (app w)) as [[|c path]|]; oracle_cases; auto.
Qed.

(** X10: in every run both selections are items of the combo boxes, and
    every recognition thread, every translation request and every
    synthesis request is given a language code of the table. *)
Theorem X10_requests_use_table_codes (files : gset string) (evs : list Event) :
  let w := exec evs (init files) in
  source_lang (app w) < length languages /\
  target_lang (app w) < length languages /\
  (forall tid t, threads w !! tid = Some t -> language t ∈ codes) /\
  Forall supported (trace w).
Proof.
  cbv zeta.
  apply (exec_invariant _ (fun ev w => languages_step ev w)).
  cbn. split; [lia|]. split; [lia|]. split; [|constructor].
  intros tid t H. discriminate H.
Qed.

Lemma thread_kept_step (ev : Event) (w : World) (tid : nat) (t : Thread) :
  threads w !! tid = Some t ->
  exists t', threads (step ev w) !! tid = Some t' /\ language t' = language t.
Proof.
  intros Hthr. destruct (is_worker ev) eqn:Hwk.
  { apply (worker_step_frame ev w Hwk), Hthr. }
  unfold step. destruct (closed w); [eauto|].
  destruct ev as [|i|i|tid0 env|tid0 sv|sv|tid0 env]; cbn; try discriminate Hwk.
  - destruct (speak_enabled (app w)); cbn; [|eauto].
    exists t. split; [apply lookup_app_l_Some, Hthr|reflexivity].
  - case_bool_decide; cbn; eauto.
  - case_bool_decide; cbn; eauto.
  - destruct (threads w !! tid0) as [t0|] eqn:H0; [|eauto].
    destruct (queue t0) as [|s rest]; [eauto|].
    match goal with |- context [slot sv s ?w0] =>
      destruct (slot_frame sv s w0) as (Sthr & _) end.
    rewrite Sthr. cbn.
    destruct (decide (tid0 = tid)) as [->|Hne].
    + rewrite list_lookup_insert_eq by (eapply lookup_lt_Some, Hthr).
      eexists. split; [reflexivity|]. cbn. congruence.
    + rewrite list_lookup_insert_ne by exact Hne. eauto.
  - exists t. split; [|reflexivity]. slot_unfold. cbn.
    destruct (temp_audio_file (app w)) as [[|c path]|]; oracle_cases; exact Hthr.
Qed.

(** X12: whatever happens after a thread was started, a change of the
    selections included, the thread keeps the language it was created
    with. *)
Theorem X12_thread_language_fixed (evs : list Event) (w : World)
        (tid : nat) (t : Thread) :
  threads w !! tid = Some t ->
  exists t', threads (exec evs w) !! tid = Some t' /\ language t' = language t.
Proof.
  revert w t. induction evs as [|ev evs IH]; intros w t Hthr; [cbn; eauto|].
  change (exec (ev :: evs) w) with (exec evs (step ev w)).
  destruct (thread_kept_step ev w tid t Hthr) as (t1 & H1 & Hl1).
  destruct (IH _ _ H1) as (t' & H' & Hl'). exists t'. split; [exact H'|congruence].
Qed.

Lemma X12_thread_language_witness :
  exists t', threads (exec [SelectSource 2; ThreadRuns 0 heard] (step Click (init ∅)))
               !! 0 = Some t' /\ language t' = "en".
Proof.
  apply (X12_thread_language_fixed [SelectSource 2; ThreadRuns 0 heard]
           (step Click (init ∅)) 0 (mkThread "en" true [] [] None) eq_refl).
Defined.

(** X13: in every run each thread has emitted at most one signal in all,
    queued or dispatched: the slots run at most once for each capture. *)
Theorem X13_one_signal_per_thread (files : gset string) (evs : list Event)
        (tid : nat) (t : Thread) :
  threads (exec evs (init files)) !! tid = Some t ->
  length (queue t) + length (delivered t) <= 1.
Proof.
  intros Hthr.
  destruct (Inv_reachable files evs) as [_ Hthreads _ _].
  destruct (Hthreads tid t Hthr) as (Hlen & _). exact Hlen.
Qed.

Lemma X13_one_signal_witness :
  length (queue (mkThread "en" true [] [finished "(en) hello world"] None)) +
  length (delivered (mkThread "en" true [] [finished "(en) hello world"] None)) <= 1.
Proof.
  apply (X13_one_signal_per_thread ∅ (cycle 0 ["k3x9q2ab"]) 0).
  vm_compute. reflexivity.
Defined.
